(** * Arc-eager transition parser ([arcEager.py]): transition system,
      static oracle and dynamic-oracle cost model.

    The development has two layers.

    - The value layer (top level) embeds every method of [ArcState] as a
      function on a record whose three sequences are Rocq lists.  The
      read-only methods ([done], [valid_action], [get_next_action],
      [action_cost]) live only here.
    - The store layer ([Module Store]) embeds the four transitions and
      [do_action] over an explicit store of Python list objects, so that
      [list(...)] copies, [append], [pop(0)] and [insert(0, _)] are
      allocations and in-place updates.  It is related to the value layer
      by a simulation lemma.

    [print] calls guarded by [self.verbose] produce console output only and
    are not modelled; the flag itself is carried along. *)

From stdpp Require Import gmap strings list sorting.

Local Open Scope string_scope.
Local Open Scope list_scope.

(** ** Python scaffolding *)

(** Exceptions raised by the modelled code.  [IndexError] and
    [AttributeError] are the interpreter's own ([l[0]] and [l.pop(0)] on an
    empty list, [.id] on a tuple); [KeyError] is a failed dict lookup. *)
Inductive exn :=
| Exception (msg : string)
| IndexError (msg : string)
| AttributeError (msg : string)
| KeyError (key : Z).

Inductive result (A : Type) :=
| Ok (a : A)
| Raise (e : exn).
Arguments Ok {A} a.
Arguments Raise {A} e.

Definition is_raise {A} (r : result A) : bool :=
  match r with Ok _ => false | Raise _ => true end.

Definition rbind {A B} (r : result A) (k : A -> result B) : result B :=
  match r with Ok a => k a | Raise e => Raise e end.

(** [range(lo, hi)] over Python ints; empty when [hi <= lo]. *)
Definition range (lo hi : Z) : list Z :=
  map (fun i => (lo + Z.of_nat i)%Z) (seq 0 (Z.to_nat (hi - lo))).

(** [l[0]] *)
Definition index0 {A} (l : list A) : result A :=
  match l with
  | x :: _ => Ok x
  | [] => Raise (IndexError "list index out of range")
  end.

(** [l.pop(0)]: the popped element and the list that remains. *)
Definition pop0 {A} (l : list A) : result (A * list A) :=
  match l with
  | x :: l' => Ok (x, l')
  | [] => Raise (IndexError "pop from empty list")
  end.

(** ** Tokens and the gold graph *)

(** [class ArcNode] *)
Record ArcNode := mkArcNode { id : Z; word : string; pos : string }.

(** The attributes of a graph node that the parser reads. *)
Record NodeAttrs := mkNodeAttrs { attr_word : string; attr_cpos : string }.

(** The part of [networkx.DiGraph] the parser uses: the node dictionary
    [graph.node] in its iteration order, and the edge set. *)
Record DiGraph := mkDiGraph {
  node : list (Z * NodeAttrs);
  edges : list (Z * Z)
}.

(** [graph.nodes()] *)
Definition nodes (graph : DiGraph) : list Z := map fst (node graph).

(** [graph.node[i]] *)
Fixpoint node_lookup (d : list (Z * NodeAttrs)) (i : Z) : result NodeAttrs :=
  match d with
  | [] => Raise (KeyError i)
  | (j, a) :: d' => if (j =? i)%Z then Ok a else node_lookup d' i
  end.

(** [graph.has_edge(u, v)] *)
Definition has_edge (graph : DiGraph) (u v : Z) : bool :=
  existsb (fun e => (fst e =? u)%Z && (snd e =? v)%Z) (edges graph).

(** ** Parser state *)

(** [class ArcState]: the instance attributes set by [__init__]. *)
Record ArcState := mkArcState {
  buffer : list ArcNode;
  stack : list ArcNode;
  relations : list (Z * Z);
  verbose : bool
}.

(** Available actions *)
Definition ARC_LEFT : Z := 1.
Definition ARC_RIGHT : Z := 2.
Definition SHIFT : Z := 3.
Definition REDUCE : Z := 4.

Definition ACTIONS : list Z := [ARC_LEFT; ARC_RIGHT; SHIFT; REDUCE].

(** [initialize_from_graph]: one [ArcNode] per graph node, in the order of
    [graph.nodes()]; then one [shift]. *)
Fixpoint build_buffer (graph : DiGraph) (ids : list Z) (b : list ArcNode)
  : result (list ArcNode) :=
  match ids with
  | [] => Ok b
  | i :: ids' =>
      rbind (node_lookup (node graph) i) (fun a =>
      build_buffer graph ids' (b ++ [mkArcNode i (attr_word a) (attr_cpos a)]))
  end.

(** [arc_left] *)
Definition arc_left (self : ArcState) : result ArcState :=
  let new_buffer := buffer self in
  let new_stack := stack self in
  let new_rel := relations self in
  if (length (stack self) <? 1)%nat || (length (buffer self) <? 1)%nat
  then Raise (Exception "Arc left without items")
  else
    rbind (index0 (stack self)) (fun s =>
    rbind (index0 (buffer self)) (fun b =>
    let new_rel := new_rel ++ [(id b, id s)] in
    rbind (pop0 new_stack) (fun '(_, new_stack) =>
    Ok (mkArcState new_buffer new_stack new_rel (verbose self))))).

(** [arc_right] *)
Definition arc_right (self : ArcState) : result ArcState :=
  let new_buffer := buffer self in
  let new_stack := stack self in
  let new_rel := relations self in
  if (length (stack self) <? 1)%nat || (length (buffer self) <? 1)%nat
  then Raise (Exception "Arc right without items")
  else
    rbind (index0 (stack self)) (fun s =>
    rbind (index0 (buffer self)) (fun b =>
    let new_rel := new_rel ++ [(id s, id b)] in
    rbind (pop0 new_buffer) (fun '(_, new_buffer) =>
    let new_stack := b :: new_stack in
    Ok (mkArcState new_buffer new_stack new_rel (verbose self))))).

(** [shift] *)
Definition shift (self : ArcState) : result ArcState :=
  let new_buffer := buffer self in
  let new_stack := stack self in
  let new_rel := relations self in
  if (length (buffer self) =? 0)%nat
  then Raise (Exception "Shift with empty buffer")
  else
    rbind (pop0 new_buffer) (fun '(w, new_buffer) =>
    let new_stack := w :: new_stack in
    Ok (mkArcState new_buffer new_stack new_rel (verbose self))).

(** [reduce] *)
Definition reduce (self : ArcState) : result ArcState :=
  let new_buffer := buffer self in
  let new_stack := stack self in
  let new_rel := relations self in
  if (length (stack self) =? 0)%nat
  then Raise (Exception "Reduce with empty stack")
  else
    rbind (pop0 new_stack) (fun '(_, new_stack) =>
    Ok (mkArcState new_buffer new_stack new_rel (verbose self))).

(** [initialize_from_graph] *)
Definition initialize_from_graph (graph : DiGraph) : result ArcState :=
  rbind (build_buffer graph (nodes graph) []) (fun b =>
  let state := mkArcState b [] [] false in
  shift state).

(** [done] *)
Definition done (self : ArcState) : bool :=
  if (length (buffer self) =? 0)%nat && (length (stack self) =? 1)%nat
  then true else false.

(** [get_next_action].  The inner [for k in range(0, s.id)] returns
    [REDUCE] at the first [k] with a gold edge to or from [b]; when the loop
    ends without returning, control leaves the outer [if] and reaches the
    final [return ArcState.SHIFT]. *)
Definition get_next_action (self : ArcState) (graph : DiGraph) : Z :=
  if (0 <? length (stack self))%nat && (0 <? length (buffer self))%nat then
    match stack self, buffer self with
    | s :: _, b :: _ =>
        if has_edge graph (id b) (id s) then ARC_LEFT
        else if has_edge graph (id s) (id b) then ARC_RIGHT
        else if existsb (fun k => has_edge graph k (id b) || has_edge graph (id b) k)
                        (range 0 (id s))
             then REDUCE
             else SHIFT
    | _, _ => SHIFT (* not reached: both lists are non-empty here *)
    end
  else if (1 <? length (stack self))%nat then REDUCE
  else SHIFT.

(** [do_action] *)
Definition do_action (self : ArcState) (action : Z) : result ArcState :=
  if (action =? ARC_LEFT)%Z then arc_left self
  else if (action =? ARC_RIGHT)%Z then arc_right self
  else if (action =? SHIFT)%Z then shift self
  else if (action =? REDUCE)%Z then reduce self
  else Raise (Exception "Invalid Action").

(** [l[1] == self.stack[0]] in [valid_action]: the left operand is the
    dependent id stored in a relation tuple (an [int]), the right operand
    is an [ArcNode] instance.  [ArcNode] defines no [__eq__], so the
    comparison falls back to object identity, and an [int] is never the
    same object as an [ArcNode]. *)
Definition int_eq_node (i : Z) (n : ArcNode) : bool := false.

(** [valid_action].  Each [if action == ...:] block either returns [False]
    ([Some false]) or falls through ([None]) to the next block and finally
    to [return True]. *)
Definition valid_action (self : ArcState) (action : Z) : bool :=
  let arc_left_block :=
    if (action =? ARC_LEFT)%Z then
      if (length (stack self) <? 1)%nat || (length (buffer self) <? 1)%nat
      then Some false
      else match stack self with
           | s :: _ =>
               if (id s =? 0)%Z then Some false
               else if existsb (fun l => int_eq_node (snd l) s) (relations self)
                    then Some false
                    else None
           | [] => None
           end
    else None in
  let arc_right_block :=
    if (action =? ARC_RIGHT)%Z then
      if (length (stack self) <? 1)%nat || (length (buffer self) <? 1)%nat
      then Some false else None
    else None in
  let shift_block :=
    if (action =? SHIFT)%Z then
      if (length (buffer self) =? 0)%nat then Some false else None
    else None in
  let reduce_block :=
    if (action =? REDUCE)%Z then
      if (length (stack self) =? 0)%nat then Some false else None
    else None in
  match arc_left_block with Some r => r | None =>
  match arc_right_block with Some r => r | None =>
  match shift_block with Some r => r | None =>
  match reduce_block with Some r => r | None =>
  true
  end end end end.

(** [loss = 0; for k in ks: if cond(k): loss += 1] *)
Definition count_loss (cond : ArcNode -> bool) (ks : list ArcNode) (loss : Z) : Z :=
  fold_left (fun loss k => if cond k then (loss + 1)%Z else loss) ks loss.

(** The value returned for an action that is not valid. *)
Definition INFEASIBLE : Z := 999.

(** [action_cost] *)
Definition action_cost (self : ArcState) (action : Z) (graph : DiGraph) : result Z :=
  if negb (valid_action self action) then Ok INFEASIBLE
  else if (action =? ARC_LEFT)%Z then
    rbind (index0 (buffer self)) (fun b =>
    rbind (index0 (stack self)) (fun s =>
    if has_edge graph (id b) (id s) then Ok 0%Z
    else
      let head_in_buffer :=
        existsb (fun k => has_edge graph (id k) (id s)) (buffer self) in
      if negb head_in_buffer then Ok 0%Z
      else
        Ok (count_loss (fun k => has_edge graph (id k) (id s)
                                 || has_edge graph (id s) (id k))
                       (buffer self) 0%Z)))
  else if (action =? ARC_RIGHT)%Z then
    rbind (index0 (buffer self)) (fun b =>
    rbind (index0 (stack self)) (fun s =>
    if has_edge graph (id s) (id b) then Ok 0%Z
    else
      let loss := 0%Z in
      let loss := count_loss (fun k => has_edge graph (id k) (id b))
                             (buffer self ++ stack self) loss in
      let loss := count_loss (fun k => has_edge graph (id b) (id k))
                             (stack self) loss in
      Ok loss))
  else if (action =? SHIFT)%Z then
    rbind (index0 (buffer self)) (fun b =>
    Ok (count_loss (fun k => has_edge graph (id k) (id b)
                             || has_edge graph (id b) (id k))
                   (stack self) 0%Z))
  else if (action =? REDUCE)%Z then
    rbind (index0 (stack self)) (fun s =>
    Ok (count_loss (fun k => has_edge graph (id s) (id k)) (buffer self) 0%Z))
  else Raise (Exception "Invalid Action").

(** ** The driver loop

    [while not arcState.done(): a = arcState.get_next_action(graph);
     if arcState.valid_action(a): arcState = arcState.do_action(a)
     else: break] *)

(** One iteration of the loop body; [None] when the loop is left ([done],
    the [break], or an exception of [do_action]). *)
Definition canonical_step (graph : DiGraph) (arcState : ArcState) : option ArcState :=
  if done arcState then None
  else
    let a := get_next_action arcState graph in
    if valid_action arcState a then
      match do_action arcState a with
      | Ok arcState' => Some arcState'
      | Raise _ => None
      end
    else None.

(** The state after exactly [k] iterations, if the loop runs that long. *)
Fixpoint canonical_path (graph : DiGraph) (k : nat) (arcState : ArcState)
  : option ArcState :=
  match k with
  | O => Some arcState
  | S k' =>
      match canonical_step graph arcState with
      | Some arcState' => canonical_path graph k' arcState'
      | None => None
      end
  end.

(** Configurations reachable by applying only actions that [valid_action]
    accepted. *)
Inductive reachable (start : ArcState) : ArcState -> Prop :=
| reachable_start : reachable start start
| reachable_step st action st' :
    reachable start st ->
    valid_action st action = true ->
    do_action st action = Ok st' ->
    reachable start st'.

(** ** Well-formed projective gold trees *)

(** Strictly increasing ids. *)
Fixpoint increasing (ids : list Z) : bool :=
  match ids with
  | [] => true
  | i :: ids' =>
      match ids' with
      | [] => true
      | j :: _ => (i <? j)%Z && increasing ids'
      end
  end.

(** The tokens are laid out in sentence order with the synthetic root,
    id 0, first. *)
Definition sentence_ok (ids : list Z) : bool :=
  match ids with
  | [] => false
  | i :: _ => (i =? 0)%Z && increasing ids
  end.

Definition mem_id (i : Z) (ids : list Z) : bool :=
  existsb (fun j => (j =? i)%Z) ids.

(** Every edge joins two tokens of the sentence. *)
Definition edges_in_sentence (graph : DiGraph) : bool :=
  forallb (fun e => mem_id (fst e) (nodes graph) && mem_id (snd e) (nodes graph))
          (edges graph).

(** Id 0 has no incoming edge. *)
Definition root_headless (graph : DiGraph) : bool :=
  forallb (fun e => negb (snd e =? 0)%Z) (edges graph).

(** Every non-root id has exactly one incoming edge. *)
Definition single_headed (graph : DiGraph) : bool :=
  forallb (fun d => (d =? 0)%Z
                    || (length (filter (fun h => has_edge graph h d = true)
                                       (nodes graph)) =? 1)%nat)
          (nodes graph).

(** Two arcs cross when exactly one endpoint of the second lies strictly
    between the endpoints of the first. *)
Definition crossing (e1 e2 : Z * Z) : bool :=
  (Z.min (fst e1) (snd e1) <? Z.min (fst e2) (snd e2))%Z
  && (Z.min (fst e2) (snd e2) <? Z.max (fst e1) (snd e1))%Z
  && (Z.max (fst e1) (snd e1) <? Z.max (fst e2) (snd e2))%Z.

Definition projective (graph : DiGraph) : bool :=
  forallb (fun e1 => forallb (fun e2 => negb (crossing e1 e2)) (edges graph))
          (edges graph).

Definition well_formed_projective (graph : DiGraph) : bool :=
  sentence_ok (nodes graph)
  && edges_in_sentence graph
  && root_headless graph
  && single_headed graph
  && projective graph.

(** ** Store layer: the transitions over Python list objects *)

Module Store.

(** What a list held by a parser state can contain: [ArcNode] instances
    (buffer, stack) and id pairs (relations). *)
Inductive pyval :=
| PyNode (n : ArcNode)
| PyTuple (t : Z * Z).

(** References to list objects, and the store that holds their current
    contents. *)
Abbreviation ref := positive.
Abbreviation store := (gmap positive (list pyval)).

(** A computation runs on a store and either raises or returns, leaving
    a new store; [None] when it follows a reference the store does not
    hold (no Python state does). *)
Definition M (A : Type) : Type := store -> option (result A * store).

Definition ret {A} (a : A) : M A := fun σ => Some (Ok a, σ).

Definition raise {A} (e : exn) : M A := fun σ => Some (Raise e, σ).

Definition bind {A B} (m : M A) (k : A -> M B) : M B :=
  fun σ =>
    match m σ with
    | Some (Ok a, σ') => k a σ'
    | Some (Raise e, σ') => Some (Raise e, σ')
    | None => None
    end.

Notation "'do' x <- m ; k" := (bind m (fun x => k))
  (at level 10, x name, m at level 100, k at level 200).
Notation "m ;; k" := (bind m (fun _ => k))
  (at level 100, k at level 200, right associativity).

(** [list(l)]: a new list object with the elements of [l]. *)
Definition list_copy (l : ref) : M ref :=
  fun σ =>
    match σ !! l with
    | Some xs => let l' := fresh (dom σ) in Some (Ok l', <[l' := xs]> σ)
    | None => None
    end.

(** [len(l)].  It only reads the store, so the transitions below take both
    lengths before testing [len(...) < 1 or len(...) < 1]. *)
Definition list_len (l : ref) : M nat :=
  fun σ => match σ !! l with Some xs => Some (Ok (length xs), σ) | None => None end.

(** [l[0]] *)
Definition list_index0 (l : ref) : M pyval :=
  fun σ => match σ !! l with Some xs => Some (index0 xs, σ) | None => None end.

(** [l.append(x)] *)
Definition list_append (l : ref) (x : pyval) : M unit :=
  fun σ =>
    match σ !! l with
    | Some xs => Some (Ok tt, <[l := xs ++ [x]]> σ)
    | None => None
    end.

(** [l.pop(0)] *)
Definition list_pop0 (l : ref) : M pyval :=
  fun σ =>
    match σ !! l with
    | Some xs =>
        match pop0 xs with
        | Ok (x, xs') => Some (Ok x, <[l := xs']> σ)
        | Raise e => Some (Raise e, σ)
        end
    | None => None
    end.

(** [l.insert(0, x)] *)
Definition list_insert0 (l : ref) (x : pyval) : M unit :=
  fun σ =>
    match σ !! l with
    | Some xs => Some (Ok tt, <[l := x :: xs]> σ)
    | None => None
    end.

(** [x.id] *)
Definition attr_id (x : pyval) : M Z :=
  match x with
  | PyNode n => ret (id n)
  | PyTuple _ => raise (AttributeError "'tuple' object has no attribute 'id'")
  end.

(** [class ArcState]: the three list attributes are references.  The
    [ArcNode] instances inside the lists are shared between states; no
    method assigns to their attributes. *)
Record ArcState := mkArcState {
  buffer : ref;
  stack : ref;
  relations : ref;
  verbose : bool
}.

(** [arc_left] *)
Definition arc_left (self : ArcState) : M ArcState :=
  do new_buffer <- list_copy (buffer self);
  do new_stack <- list_copy (stack self);
  do new_rel <- list_copy (relations self);
  do len_stack <- list_len (stack self);
  do len_buffer <- list_len (buffer self);
  if (len_stack <? 1)%nat || (len_buffer <? 1)%nat
  then raise (Exception "Arc left without items")
  else
    do s <- list_index0 (stack self);
    do b <- list_index0 (buffer self);
    do b_id <- attr_id b;
    do s_id <- attr_id s;
    list_append new_rel (PyTuple (b_id, s_id)) ;;
    list_pop0 new_stack ;;
    ret (mkArcState new_buffer new_stack new_rel (verbose self)).

(** [arc_right] *)
Definition arc_right (self : ArcState) : M ArcState :=
  do new_buffer <- list_copy (buffer self);
  do new_stack <- list_copy (stack self);
  do new_rel <- list_copy (relations self);
  do len_stack <- list_len (stack self);
  do len_buffer <- list_len (buffer self);
  if (len_stack <? 1)%nat || (len_buffer <? 1)%nat
  then raise (Exception "Arc right without items")
  else
    do s <- list_index0 (stack self);
    do b <- list_index0 (buffer self);
    do s_id <- attr_id s;
    do b_id <- attr_id b;
    list_append new_rel (PyTuple (s_id, b_id)) ;;
    list_pop0 new_buffer ;;
    list_insert0 new_stack b ;;
    ret (mkArcState new_buffer new_stack new_rel (verbose self)).

(** [shift] *)
Definition shift (self : ArcState) : M ArcState :=
  do new_buffer <- list_copy (buffer self);
  do new_stack <- list_copy (stack self);
  do new_rel <- list_copy (relations self);
  do len_buffer <- list_len (buffer self);
  if (len_buffer =? 0)%nat
  then raise (Exception "Shift with empty buffer")
  else
    do w <- list_pop0 new_buffer;
    list_insert0 new_stack w ;;
    ret (mkArcState new_buffer new_stack new_rel (verbose self)).

(** [reduce] *)
Definition reduce (self : ArcState) : M ArcState :=
  do new_buffer <- list_copy (buffer self);
  do new_stack <- list_copy (stack self);
  do new_rel <- list_copy (relations self);
  do len_stack <- list_len (stack self);
  if (len_stack =? 0)%nat
  then raise (Exception "Reduce with empty stack")
  else
    list_pop0 new_stack ;;
    ret (mkArcState new_buffer new_stack new_rel (verbose self)).

(** [do_action] *)
Definition do_action (self : ArcState) (action : Z) : M ArcState :=
  if (action =? ARC_LEFT)%Z then arc_left self
  else if (action =? ARC_RIGHT)%Z then arc_right self
  else if (action =? SHIFT)%Z then shift self
  else if (action =? REDUCE)%Z then reduce self
  else raise (Exception "Invalid Action").

End Store.

(** The store-level state [r] holds, in store [σ], the sequences of the
    value-level state [p]. *)
Definition represents (σ : gmap positive (list Store.pyval))
    (r : Store.ArcState) (p : ArcState) : Prop :=
  σ !! Store.buffer r = Some (map Store.PyNode (buffer p))
  /\ σ !! Store.stack r = Some (map Store.PyNode (stack p))
  /\ σ !! Store.relations r = Some (map Store.PyTuple (relations p))
  /\ Store.verbose r = verbose p.

(** ** Example sentences *)

Definition root_attrs : NodeAttrs := mkNodeAttrs "*root*" "*root*".

(** [root Bob saw Alice], with "saw" the head of "Bob" and "Alice" and the
    dependent of the root. *)
Definition bob_saw_alice : DiGraph :=
  mkDiGraph
    [(0%Z, root_attrs);
     (1%Z, mkNodeAttrs "Bob" "NOUN");
     (2%Z, mkNodeAttrs "saw" "VERB");
     (3%Z, mkNodeAttrs "Alice" "NOUN")]
    [(0%Z, 2%Z); (2%Z, 1%Z); (2%Z, 3%Z)].

Definition root_node : ArcNode := mkArcNode 0 "*root*" "*root*".
Definition bob : ArcNode := mkArcNode 1 "Bob" "NOUN".
Definition saw : ArcNode := mkArcNode 2 "saw" "VERB".
Definition alice : ArcNode := mkArcNode 3 "Alice" "NOUN".

(** The configuration [initialize_from_graph] builds for that sentence. *)
Definition bob_saw_alice_initial : ArcState :=
  mkArcState [bob; saw; alice] [root_node] [] false.

(** A sentence of 999 words whose last word heads all the others and
    depends on the root. *)
Definition long_graph : DiGraph :=
  mkDiGraph
    ((0%Z, root_attrs) :: map (fun i => (i, mkNodeAttrs "w" "X")) (range 1 1000))
    ((0%Z, 999%Z) :: map (fun i => (999%Z, i)) (range 1 999)).

Definition long_initial : ArcState :=
  mkArcState (map (fun i => mkArcNode i "w" "X") (range 1 1000)) [root_node] [] false.

(** [long_initial] after 998 shifts: only the last word is left in the
    buffer. *)
Definition long_shifted : ArcState :=
  mkArcState [mkArcNode 999 "w" "X"]
             (rev (root_node :: map (fun i => mkArcNode i "w" "X") (range 1 999)))
             [] false.

(** The number of tokens of [ks] that satisfy [cond]. *)
Definition count_tokens (cond : ArcNode -> bool) (ks : list ArcNode) : nat :=
  length (List.filter cond ks).

(** The tokens keep their sentence order: ids decrease down the stack,
    increase along the buffer, every stack id is below every buffer id, and
    no id is negative. *)
Definition ordered (st : ArcState) : Prop :=
  StronglySorted Z.gt (map id (stack st))
  /\ StronglySorted Z.lt (map id (buffer st))
  /\ (forall s b, In s (stack st) -> In b (buffer st) -> (id s < id b)%Z)
  /\ (forall k, In k (stack st ++ buffer st) -> (0 <= id k)%Z).

(** Transitions still to come: two per buffer token, one per stack token. *)
Definition remaining (st : ArcState) : nat :=
  2 * length (buffer st) + length (stack st).

(** The token built for graph node [i] (the lookup succeeds for every node
    of the graph). *)
Definition token_of (g : DiGraph) (i : Z) : ArcNode :=
  match node_lookup (node g) i with
  | Ok a => mkArcNode i (attr_word a) (attr_cpos a)
  | Raise _ => mkArcNode i "" ""
  end.

(** The references of [r] are three distinct list objects that the store
    [σ] does not hold. *)
Definition fresh_in (σ : gmap positive (list Store.pyval)) (r : Store.ArcState) : Prop :=
  (Store.buffer r ∉ dom σ) /\ (Store.stack r ∉ dom σ) /\ (Store.relations r ∉ dom σ)
  /\ NoDup [Store.buffer r; Store.stack r; Store.relations r].

(** The store-level computation [m], run on [σ], ends as the value-level
    outcome [v] says and leaves every list object of [σ] as it was; a
    returned state consists of fresh list objects. *)
Definition simulates (σ : gmap positive (list Store.pyval))
    (m : Store.M Store.ArcState) (v : result ArcState) : Prop :=
  exists σ',
    (forall l, l ∈ dom σ -> σ' !! l = σ !! l)
    /\ match v with
       | Ok p' =>
           exists r', m σ = Some (Ok r', σ') /\ represents σ' r' p' /\ fresh_in σ r'
       | Raise e => m σ = Some (Raise e, σ')
       end.

(** ** The driver's output and runs of transitions *)

(** The head the driver writes for token [i]:
    [head = 0; for edge in arcState.relations:
       if edge[1] == id: head = edge[0]; break]. *)
Fixpoint find_head (relations : list (Z * Z)) (i : Z) (head : Z) : Z :=
  match relations with
  | [] => head
  | edge :: relations' =>
      if (snd edge =? i)%Z then fst edge else find_head relations' i head
  end.

Definition predicted_head (arcState : ArcState) (i : Z) : Z :=
  find_head (relations arcState) i 0%Z.

(** [for a in actions: state = state.do_action(a)]: the transitions applied
    one after the other, stopping at the first exception. *)
Fixpoint do_actions (self : ArcState) (actions : list Z) : result ArcState :=
  match actions with
  | [] => Ok self
  | a :: actions' => rbind (do_action self a) (fun self' => do_actions self' actions')
  end.

(** ** Gold trees proper *)

(** [x] is the root or hangs below it: following gold heads from [x] leads
    to id 0 within [fuel] steps. *)
Fixpoint reaches_root (g : DiGraph) (fuel : nat) (x : Z) : bool :=
  if (x =? 0)%Z then true
  else match fuel with
       | O => false
       | S fuel' =>
           existsb (fun h => if has_edge g h x then reaches_root g fuel' h else false)
                   (nodes g)
       end.

(** Every token hangs below the root, so the graph has no cycle. *)
Definition rooted (g : DiGraph) : bool :=
  forallb (reaches_root g (length (nodes g))) (nodes g).

Inductive below_root (g : DiGraph) : Z -> Prop :=
| below_root_root : below_root g 0%Z
| below_root_head h x :
    has_edge g h x = true -> below_root g h -> below_root g x.

(** The id [x] belongs to a token of [ks]. *)
Definition has_id (x : Z) (ks : list ArcNode) : Prop := In x (map id ks).

(** Every recorded arc is a gold arc, and every gold arc is either recorded
    or can still be built: both its ends are in the configuration and one
    of them is still in the buffer. *)
Definition collected (g : DiGraph) (st : ArcState) : Prop :=
  (forall h d, In (h, d) (relations st) -> has_edge g h d = true)
  /\ (forall h d, has_edge g h d = true ->
        In (h, d) (relations st)
        \/ ((has_id h (buffer st) \/ has_id h (stack st))
            /\ (has_id d (buffer st) \/ has_id d (stack st))
            /\ (has_id h (buffer st) \/ has_id d (buffer st)))).

(** * Properties *)

(** ** Elementary facts *)

Lemma existsb_const_false {A} (l : list A) : existsb (fun _ => false) l = false.
Proof. induction l; simpl; auto. Qed.

Lemma existsb_range (f : Z -> bool) (n : Z) :
  existsb f (range 0 n) = true <-> exists k, (0 <= k < n)%Z /\ f k = true.
Proof.
  unfold range. rewrite existsb_exists. split.
  - intros (k & Hin & Hk). apply in_map_iff in Hin as (i & <- & Hi).
    apply in_seq in Hi. exists (0 + Z.of_nat i)%Z. split; [lia | exact Hk].
  - intros (k & Hk & Hf). exists k. split; [| exact Hf].
    apply in_map_iff. exists (Z.to_nat k). split; [lia |].
    apply in_seq. lia.
Qed.

Lemma count_loss_count_tokens cond ks loss :
  count_loss cond ks loss = (loss + Z.of_nat (count_tokens cond ks))%Z.
Proof.
  unfold count_loss, count_tokens. revert loss.
  induction ks as [| k ks IH]; intros loss; simpl.
  - lia.
  - rewrite IH. destruct (cond k); simpl; lia.
Qed.

Lemma count_tokens_le cond ks : (count_tokens cond ks <= length ks)%nat.
Proof. unfold count_tokens. apply List.filter_length_le. Qed.

Lemma count_tokens_app cond ks ks' :
  count_tokens cond (ks ++ ks') = (count_tokens cond ks + count_tokens cond ks')%nat.
Proof. unfold count_tokens. rewrite List.filter_app, length_app. reflexivity. Qed.

Lemma count_tokens_none cond ks :
  (forall k, In k ks -> cond k = false) -> count_tokens cond ks = 0%nat.
Proof.
  unfold count_tokens. induction ks as [| k ks IH]; intros H; simpl; [reflexivity |].
  rewrite (H k (or_introl eq_refl)). apply IH. intros k' Hk'. apply H. now right.
Qed.

(** What [valid_action] computes for each of the four actions. *)
Lemma valid_action_arc_left st :
  valid_action st ARC_LEFT =
  match stack st, buffer st with
  | s :: _, _ :: _ => negb (id s =? 0)%Z
  | _, _ => false
  end.
Proof.
  unfold valid_action. simpl.
  destruct (stack st) as [| s ss], (buffer st) as [| b bs]; simpl; try reflexivity.
  unfold int_eq_node. rewrite existsb_const_false.
  destruct (id s =? 0)%Z; reflexivity.
Qed.

Lemma valid_action_arc_right st :
  valid_action st ARC_RIGHT =
  match stack st, buffer st with
  | _ :: _, _ :: _ => true
  | _, _ => false
  end.
Proof.
  unfold valid_action. simpl.
  destruct (stack st) as [| s ss], (buffer st) as [| b bs]; reflexivity.
Qed.

Lemma valid_action_shift st :
  valid_action st SHIFT = match buffer st with [] => false | _ :: _ => true end.
Proof. unfold valid_action. simpl. destruct (buffer st); reflexivity. Qed.

Lemma valid_action_reduce st :
  valid_action st REDUCE = match stack st with [] => false | _ :: _ => true end.
Proof. unfold valid_action. simpl. destruct (stack st); reflexivity. Qed.

Lemma in_ACTIONS a :
  In a ACTIONS -> a = ARC_LEFT \/ a = ARC_RIGHT \/ a = SHIFT \/ a = REDUCE.
Proof. unfold ACTIONS. simpl. intuition. Qed.

Lemma done_iff st : done st = true <-> buffer st = [] /\ length (stack st) = 1%nat.
Proof.
  unfold done. destruct (buffer st) as [| b bs]; simpl.
  - destruct (Nat.eqb_spec (length (stack st)) 1); split; intros; intuition congruence.
  - split; [discriminate | intros [H _]; discriminate].
Qed.

(** ** Legality and application of transitions *)

(** When each transition raises. *)
Lemma arc_left_raises st :
  is_raise (arc_left st) = match stack st, buffer st with _ :: _, _ :: _ => false | _, _ => true end.
Proof. unfold arc_left. destruct (stack st), (buffer st); reflexivity. Qed.

Lemma arc_right_raises st :
  is_raise (arc_right st) = match stack st, buffer st with _ :: _, _ :: _ => false | _, _ => true end.
Proof. unfold arc_right. destruct (stack st), (buffer st); reflexivity. Qed.

Lemma shift_raises st :
  is_raise (shift st) = match buffer st with [] => true | _ :: _ => false end.
Proof. unfold shift. destruct (buffer st); reflexivity. Qed.

Lemma reduce_raises st :
  is_raise (reduce st) = match stack st with [] => true | _ :: _ => false end.
Proof. unfold reduce. destruct (stack st); reflexivity. Qed.

(** C1, as stated, fails: in the initial configuration of "Bob saw Alice"
    the root is on top of the stack, so [valid_action] rejects [ARC_LEFT],
    yet [do_action] applies it, recording the root as a dependent of
    "Bob". *)
Lemma do_action_applies_invalid_arc_left :
  initialize_from_graph bob_saw_alice = Ok bob_saw_alice_initial
  /\ valid_action bob_saw_alice_initial ARC_LEFT = false
  /\ do_action bob_saw_alice_initial ARC_LEFT
     = Ok (mkArcState [bob; saw; alice] [] [(1%Z, 0%Z)] false).
Proof. repeat split; reflexivity. Qed.

(** C1, amended: for each of the four actions, [do_action] raises exactly
    when [valid_action] is false and, in the case of [ARC_LEFT], the stack
    or the buffer is empty.  So an action that [valid_action] accepts is
    always applied, [ARC_RIGHT], [SHIFT] and [REDUCE] raise exactly when
    they are invalid, and [ARC_LEFT] raises exactly when an operand is
    missing. *)
Theorem do_action_raises_iff st a :
  In a ACTIONS ->
  is_raise (do_action st a) = true
  <-> valid_action st a = false
      /\ (a = ARC_LEFT -> stack st = [] \/ buffer st = []).
Proof.
  intros Ha. apply in_ACTIONS in Ha as [-> | [-> | [-> | ->]]]; unfold do_action; simpl.
  - rewrite arc_left_raises, valid_action_arc_left.
    destruct (stack st) as [| s ss], (buffer st) as [| b bs]; simpl;
      try (split; [intros _; split; [reflexivity | intros _; auto] | reflexivity]).
    split; [discriminate |]. intros [_ H]. destruct (H eq_refl); discriminate.
  - rewrite arc_right_raises, valid_action_arc_right.
    destruct (stack st), (buffer st); simpl;
      (split; [intros H; split; [congruence | discriminate] | intros [H _]; congruence]).
  - rewrite shift_raises, valid_action_shift.
    destruct (buffer st); simpl;
      (split; [intros H; split; [congruence | discriminate] | intros [H _]; congruence]).
  - rewrite reduce_raises, valid_action_reduce.
    destruct (stack st); simpl;
      (split; [intros H; split; [congruence | discriminate] | intros [H _]; congruence]).
Qed.

Lemma do_action_raises_iff_witness :
  In SHIFT ACTIONS
  /\ (is_raise (do_action (mkArcState [] [root_node] [] false) SHIFT) = true
      <-> valid_action (mkArcState [] [root_node] [] false) SHIFT = false
          /\ (SHIFT = ARC_LEFT -> stack (mkArcState [] [root_node] [] false) = []
                                  \/ buffer (mkArcState [] [root_node] [] false) = [])).
Proof.
  split.
  - unfold ACTIONS. simpl. auto.
  - apply (do_action_raises_iff (mkArcState [] [root_node] [] false) SHIFT).
    unfold ACTIONS. simpl. auto.
Defined.

(** C2: [valid_action] accepts [ARC_LEFT] although the stack top already
    has a head.  After [ARC_RIGHT] in the initial configuration of "Bob saw
    Alice", the arc (0, 1) is recorded and "Bob" (id 1) is on top of the
    stack; the loop over [self.relations] compares each dependent id with
    the [ArcNode] object itself and so never finds it. *)
Theorem valid_action_arc_left_ignores_relations :
  valid_action bob_saw_alice_initial ARC_RIGHT = true
  /\ do_action bob_saw_alice_initial ARC_RIGHT
     = Ok (mkArcState [saw; alice] [bob; root_node] [(0%Z, 1%Z)] false)
  /\ id bob = 1%Z
  /\ valid_action (mkArcState [saw; alice] [bob; root_node] [(0%Z, 1%Z)] false) ARC_LEFT
     = true.
Proof. repeat split; reflexivity. Qed.

(** What the code decides for [ARC_LEFT]: the recorded arcs play no part. *)
Lemma valid_action_arc_left_iff st :
  valid_action st ARC_LEFT = true
  <-> exists s ss b bs, stack st = s :: ss /\ buffer st = b :: bs /\ id s <> 0%Z.
Proof.
  rewrite valid_action_arc_left.
  destruct (stack st) as [| s ss], (buffer st) as [| b bs]; simpl.
  1-3: split; [discriminate | intros (? & ? & ? & ? & ? & ? & ?); discriminate].
  destruct (Z.eqb_spec (id s) 0); simpl; split; try discriminate; try reflexivity.
  - intros (? & ? & ? & ? & [= <- <-] & _ & Hne). contradiction.
  - intros _. exists s, ss, b, bs. auto.
Qed.

(** ** The static oracle *)

(** C6: the order in which [get_next_action] decides.  With both lists
    non-empty, [s] the stack top and [b] the buffer head: [ARC_LEFT] on a
    gold edge (b, s); else [ARC_RIGHT] on a gold edge (s, b); else [REDUCE]
    when some id k < s.id has a gold edge with b.  When the stack or the
    buffer is empty: [REDUCE] if the stack has more than one token.
    [SHIFT] in every remaining case. *)
Theorem get_next_action_order st g :
  (forall s ss b bs, stack st = s :: ss -> buffer st = b :: bs ->
     (has_edge g (id b) (id s) = true -> get_next_action st g = ARC_LEFT)
     /\ (has_edge g (id b) (id s) = false -> has_edge g (id s) (id b) = true ->
         get_next_action st g = ARC_RIGHT)
     /\ (has_edge g (id b) (id s) = false -> has_edge g (id s) (id b) = false ->
         (exists k, (0 <= k < id s)%Z
                    /\ (has_edge g k (id b) = true \/ has_edge g (id b) k = true)) ->
         get_next_action st g = REDUCE)
     /\ (has_edge g (id b) (id s) = false -> has_edge g (id s) (id b) = false ->
         ~ (exists k, (0 <= k < id s)%Z
                      /\ (has_edge g k (id b) = true \/ has_edge g (id b) k = true)) ->
         get_next_action st g = SHIFT))
  /\ ((stack st = [] \/ buffer st = []) -> (1 < length (stack st))%nat ->
      get_next_action st g = REDUCE)
  /\ ((stack st = [] \/ buffer st = []) -> (length (stack st) <= 1)%nat ->
      get_next_action st g = SHIFT).
Proof.
  unfold get_next_action. split; [| split].
  - intros s ss b bs -> ->. simpl.
    repeat split.
    + intros ->. reflexivity.
    + intros -> ->. reflexivity.
    + intros -> -> (k & Hk & Hedge).
      assert (H : existsb (fun k => has_edge g k (id b) || has_edge g (id b) k)
                          (range 0 (id s)) = true).
      { apply existsb_range. exists k. split; [exact Hk |].
        apply orb_true_iff. exact Hedge. }
      rewrite H. reflexivity.
    + intros -> -> Hno.
      destruct (existsb _ (range 0 (id s))) eqn:H; [| reflexivity].
      exfalso. apply Hno. apply existsb_range in H as (k & Hk & Hedge).
      exists k. split; [exact Hk |]. apply orb_true_iff. exact Hedge.
  - intros Hempty Hlen.
    assert (Hb : (0 <? length (stack st))%nat && (0 <? length (buffer st))%nat = false).
    { destruct Hempty as [-> | ->]; simpl; [reflexivity | apply andb_false_r]. }
    rewrite Hb. apply Nat.ltb_lt in Hlen. rewrite Hlen. reflexivity.
  - intros Hempty Hlen.
    assert (Hb : (0 <? length (stack st))%nat && (0 <? length (buffer st))%nat = false).
    { destruct Hempty as [-> | ->]; simpl; [reflexivity | apply andb_false_r]. }
    rewrite Hb. apply Nat.ltb_ge in Hlen. rewrite Hlen. reflexivity.
Qed.

(** C10: with an empty buffer and at most one token on the stack, as in
    every terminal configuration, [get_next_action] returns [SHIFT], which
    [valid_action] rejects there. *)
Theorem get_next_action_at_termination st g :
  buffer st = [] -> (length (stack st) <= 1)%nat ->
  get_next_action st g = SHIFT /\ valid_action st SHIFT = false.
Proof.
  intros Hb Hlen. split.
  - unfold get_next_action. rewrite Hb. simpl. rewrite andb_false_r.
    apply Nat.ltb_ge in Hlen. rewrite Hlen. reflexivity.
  - rewrite valid_action_shift, Hb. reflexivity.
Qed.

Lemma get_next_action_at_termination_witness :
  done (mkArcState [] [root_node] [] false) = true
  /\ buffer (mkArcState [] [root_node] [] false) = []
  /\ (length (stack (mkArcState [] [root_node] [] false)) <= 1)%nat
  /\ get_next_action (mkArcState [] [root_node] [] false) bob_saw_alice = SHIFT
  /\ valid_action (mkArcState [] [root_node] [] false) SHIFT = false.
Proof.
  split; [reflexivity |]. split; [reflexivity |]. split; [simpl; lia |].
  apply (get_next_action_at_termination (mkArcState [] [root_node] [] false) bob_saw_alice).
  - reflexivity.
  - simpl. lia.
Defined.

(** ** The cost model *)

Local Arguments count_loss : simpl never.
Local Arguments count_tokens : simpl never.
Local Arguments has_edge : simpl never.
Local Arguments range : simpl never.

(** The cost of each action. *)
Lemma action_cost_invalid st a g :
  valid_action st a = false -> action_cost st a g = Ok INFEASIBLE.
Proof. intros H. unfold action_cost. rewrite H. reflexivity. Qed.

Lemma action_cost_arc_left st g s ss b bs :
  stack st = s :: ss -> buffer st = b :: bs -> id s <> 0%Z ->
  action_cost st ARC_LEFT g =
  Ok (if has_edge g (id b) (id s) then 0%Z
      else if existsb (fun k => has_edge g (id k) (id s)) (buffer st)
           then Z.of_nat (count_tokens (fun k => has_edge g (id k) (id s)
                                                 || has_edge g (id s) (id k))
                                       (buffer st))
           else 0%Z).
Proof.
  intros Hs Hb Hne. unfold action_cost.
  rewrite valid_action_arc_left, Hs, Hb.
  destruct (Z.eqb_spec (id s) 0) as [| _]; [contradiction |].
  cbn -[existsb].
  destruct (has_edge g (id b) (id s)); [reflexivity |].
  destruct (existsb _ (b :: bs)); cbn; [| reflexivity].
  rewrite count_loss_count_tokens. reflexivity.
Qed.

Lemma action_cost_arc_right st g s ss b bs :
  stack st = s :: ss -> buffer st = b :: bs ->
  action_cost st ARC_RIGHT g =
  Ok (if has_edge g (id s) (id b) then 0%Z
      else (Z.of_nat (count_tokens (fun k => has_edge g (id k) (id b))
                                   (buffer st ++ stack st))
            + Z.of_nat (count_tokens (fun k => has_edge g (id b) (id k)) (stack st)))%Z).
Proof.
  intros Hs Hb. unfold action_cost.
  rewrite valid_action_arc_right, Hs, Hb.
  cbn -[app].
  destruct (has_edge g (id s) (id b)); [reflexivity |].
  rewrite !count_loss_count_tokens. reflexivity.
Qed.

Lemma action_cost_shift st g b bs :
  buffer st = b :: bs ->
  action_cost st SHIFT g =
  Ok (Z.of_nat (count_tokens (fun k => has_edge g (id k) (id b)
                                       || has_edge g (id b) (id k))
                             (stack st))).
Proof.
  intros Hb. unfold action_cost. rewrite valid_action_shift, Hb.
  cbn.
  rewrite count_loss_count_tokens. reflexivity.
Qed.

Lemma action_cost_reduce st g s ss :
  stack st = s :: ss ->
  action_cost st REDUCE g =
  Ok (Z.of_nat (count_tokens (fun k => has_edge g (id s) (id k)) (buffer st))).
Proof.
  intros Hs. unfold action_cost. rewrite valid_action_reduce, Hs.
  cbn.
  rewrite count_loss_count_tokens. reflexivity.
Qed.

(** C7: where [ARC_RIGHT] is legal, with [s] the stack top and [b] the
    buffer head, its cost is 0 on a gold edge (s, b); otherwise it is the
    number of tokens [k] of the buffer and the stack with a gold edge
    (k, b) plus the number of tokens [k] of the stack with a gold edge
    (b, k). *)
Theorem action_cost_arc_right_legal st g :
  valid_action st ARC_RIGHT = true ->
  exists s ss b bs,
    stack st = s :: ss /\ buffer st = b :: bs
    /\ action_cost st ARC_RIGHT g =
       Ok (if has_edge g (id s) (id b) then 0%Z
           else (Z.of_nat (count_tokens (fun k => has_edge g (id k) (id b))
                                        (buffer st ++ stack st))
                 + Z.of_nat (count_tokens (fun k => has_edge g (id b) (id k))
                                          (stack st)))%Z).
Proof.
  rewrite valid_action_arc_right.
  destruct (stack st) as [| s ss] eqn:Hs; [discriminate |].
  destruct (buffer st) as [| b bs] eqn:Hb; [discriminate |].
  intros _. exists s, ss, b, bs. split; [reflexivity | split; [reflexivity |]].
  rewrite (action_cost_arc_right st g s ss b bs Hs Hb), Hs, Hb. reflexivity.
Qed.

Lemma action_cost_arc_right_legal_witness :
  valid_action bob_saw_alice_initial ARC_RIGHT = true
  /\ exists s ss b bs,
       stack bob_saw_alice_initial = s :: ss
       /\ buffer bob_saw_alice_initial = b :: bs
       /\ action_cost bob_saw_alice_initial ARC_RIGHT bob_saw_alice =
          Ok (if has_edge bob_saw_alice (id s) (id b) then 0%Z
              else (Z.of_nat (count_tokens (fun k => has_edge bob_saw_alice (id k) (id b))
                                (buffer bob_saw_alice_initial ++ stack bob_saw_alice_initial))
                    + Z.of_nat (count_tokens (fun k => has_edge bob_saw_alice (id b) (id k))
                                  (stack bob_saw_alice_initial)))%Z).
Proof.
  split; [reflexivity |].
  apply (action_cost_arc_right_legal bob_saw_alice_initial bob_saw_alice).
  reflexivity.
Defined.

(** C3, as stated, fails: in [long_shifted], reached from the initial
    configuration of a 999-word sentence by 998 shifts, [SHIFT] is valid
    and its cost is the value returned for invalid actions. *)
Lemma action_cost_shift_reaches_sentinel :
  initialize_from_graph long_graph = Ok long_initial
  /\ Nat.iter 998 (fun r => rbind r shift) (Ok long_initial) = Ok long_shifted
  /\ valid_action long_shifted SHIFT = true
  /\ action_cost long_shifted SHIFT long_graph = Ok INFEASIBLE.
Proof.
  split; [vm_compute; reflexivity |].
  split; [vm_compute; reflexivity |].
  split; [vm_compute; reflexivity |].
  vm_compute; reflexivity.
Qed.

(** C3, amended: for each of the four actions, [action_cost] returns 999
    whenever [valid_action] is false; when [valid_action] is true it
    returns a cost between 0 and |buffer| + 2 |stack|.  Hence in every
    configuration with |buffer| + 2 |stack| < 999 the value 999 is returned
    exactly when the action is invalid, and is strictly greater than the
    cost of every valid action. *)
Theorem action_cost_sentinel st a g :
  In a ACTIONS ->
  (valid_action st a = false -> action_cost st a g = Ok INFEASIBLE)
  /\ (valid_action st a = true ->
      exists c, action_cost st a g = Ok c
                /\ (0 <= c <= Z.of_nat (length (buffer st) + 2 * length (stack st)))%Z)
  /\ ((length (buffer st) + 2 * length (stack st) < 999)%nat ->
      (action_cost st a g = Ok INFEASIBLE <-> valid_action st a = false)
      /\ (valid_action st a = true ->
          exists c, action_cost st a g = Ok c /\ (c < INFEASIBLE)%Z)).
Proof.
  intros Ha.
  assert (Hvalid : valid_action st a = true ->
            exists c, action_cost st a g = Ok c
              /\ (0 <= c <= Z.of_nat (length (buffer st) + 2 * length (stack st)))%Z).
  { intros Hv. apply in_ACTIONS in Ha as [-> | [-> | [-> | ->]]].
    - apply valid_action_arc_left_iff in Hv as (s & ss & b & bs & Hs & Hb & Hne).
      rewrite (action_cost_arc_left st g s ss b bs Hs Hb Hne).
      eexists. split; [reflexivity |].
      pose proof (count_tokens_le (fun k => has_edge g (id k) (id s)
                                            || has_edge g (id s) (id k)) (buffer st)).
      destruct (has_edge g (id b) (id s)); [lia |].
      destruct (existsb _ (buffer st)); lia.
    - rewrite valid_action_arc_right in Hv.
      destruct (stack st) as [| s ss] eqn:Hs; [discriminate |].
      destruct (buffer st) as [| b bs] eqn:Hb; [discriminate |].
      rewrite (action_cost_arc_right st g s ss b bs Hs Hb), Hs, Hb.
      eexists. split; [reflexivity |].
      pose proof (count_tokens_le (fun k => has_edge g (id k) (id b))
                                  ((b :: bs) ++ s :: ss)) as H1.
      pose proof (count_tokens_le (fun k => has_edge g (id b) (id k)) (s :: ss)) as H2.
      rewrite length_app in H1.
      destruct (has_edge g (id s) (id b)); lia.
    - rewrite valid_action_shift in Hv.
      destruct (buffer st) as [| b bs] eqn:Hb; [discriminate |].
      rewrite (action_cost_shift st g b bs Hb).
      eexists. split; [reflexivity |].
      pose proof (count_tokens_le (fun k => has_edge g (id k) (id b)
                                            || has_edge g (id b) (id k)) (stack st)).
      lia.
    - rewrite valid_action_reduce in Hv.
      destruct (stack st) as [| s ss] eqn:Hs; [discriminate |].
      rewrite (action_cost_reduce st g s ss Hs).
      eexists. split; [reflexivity |].
      pose proof (count_tokens_le (fun k => has_edge g (id s) (id k)) (buffer st)).
      lia. }
  split; [apply action_cost_invalid |]. split; [exact Hvalid |].
  intros Hsmall. split.
  - split; [| apply action_cost_invalid].
    intros Hc. destruct (valid_action st a) eqn:Hv; [| reflexivity].
    destruct (Hvalid eq_refl) as (c & Hc' & Hbound).
    rewrite Hc in Hc'. injection Hc' as <-. unfold INFEASIBLE in Hbound. lia.
  - intros Hv. destruct (Hvalid Hv) as (c & Hc & Hbound).
    exists c. split; [exact Hc |]. unfold INFEASIBLE. lia.
Qed.

Lemma action_cost_sentinel_witness :
  In SHIFT ACTIONS
  /\ (valid_action bob_saw_alice_initial SHIFT = true ->
      exists c, action_cost bob_saw_alice_initial SHIFT bob_saw_alice = Ok c
                /\ (0 <= c <= Z.of_nat (length (buffer bob_saw_alice_initial)
                                        + 2 * length (stack bob_saw_alice_initial)))%Z).
Proof.
  split.
  - unfold ACTIONS. simpl. auto.
  - apply (action_cost_sentinel bob_saw_alice_initial SHIFT bob_saw_alice).
    unfold ACTIONS. simpl. auto.
Defined.

(** ** Effect of the transitions *)

Lemma arc_left_ok st st' :
  arc_left st = Ok st' ->
  exists s ss b bs,
    stack st = s :: ss /\ buffer st = b :: bs
    /\ st' = mkArcState (buffer st) ss (relations st ++ [(id b, id s)]) (verbose st).
Proof.
  unfold arc_left.
  destruct (stack st) as [| s ss] eqn:Hs; [discriminate |].
  destruct (buffer st) as [| b bs] eqn:Hb; [discriminate |].
  simpl. intros [= <-]. exists s, ss, b, bs. auto.
Qed.

Lemma arc_right_ok st st' :
  arc_right st = Ok st' ->
  exists s ss b bs,
    stack st = s :: ss /\ buffer st = b :: bs
    /\ st' = mkArcState bs (b :: stack st) (relations st ++ [(id s, id b)]) (verbose st).
Proof.
  unfold arc_right.
  destruct (stack st) as [| s ss] eqn:Hs; [discriminate |].
  destruct (buffer st) as [| b bs] eqn:Hb; [discriminate |].
  simpl. intros [= <-]. exists s, ss, b, bs. auto.
Qed.

Lemma shift_ok st st' :
  shift st = Ok st' ->
  exists b bs,
    buffer st = b :: bs
    /\ st' = mkArcState bs (b :: stack st) (relations st) (verbose st).
Proof.
  unfold shift. destruct (buffer st) as [| b bs] eqn:Hb; [discriminate |].
  simpl. intros [= <-]. exists b, bs. auto.
Qed.

Lemma reduce_ok st st' :
  reduce st = Ok st' ->
  exists s ss,
    stack st = s :: ss
    /\ st' = mkArcState (buffer st) ss (relations st) (verbose st).
Proof.
  unfold reduce. destruct (stack st) as [| s ss] eqn:Hs; [discriminate |].
  simpl. intros [= <-]. exists s, ss. auto.
Qed.

Lemma do_action_ok st a st' :
  do_action st a = Ok st' ->
  (a = ARC_LEFT /\ arc_left st = Ok st')
  \/ (a = ARC_RIGHT /\ arc_right st = Ok st')
  \/ (a = SHIFT /\ shift st = Ok st')
  \/ (a = REDUCE /\ reduce st = Ok st').
Proof.
  unfold do_action.
  destruct (Z.eqb_spec a ARC_LEFT); [auto |].
  destruct (Z.eqb_spec a ARC_RIGHT); [auto |].
  destruct (Z.eqb_spec a SHIFT); [auto |].
  destruct (Z.eqb_spec a REDUCE); [auto 6 | discriminate].
Qed.

(** ** The initial configuration *)

Lemma node_lookup_key d i :
  In i (map fst d) -> exists a, node_lookup d i = Ok a.
Proof.
  induction d as [| [j a] d IH]; simpl; [contradiction |].
  intros [-> | Hin].
  - rewrite Z.eqb_refl. eauto.
  - destruct (j =? i)%Z; eauto.
Qed.

Lemma build_buffer_ok g ids b :
  (forall i, In i ids -> In i (nodes g)) ->
  build_buffer g ids b = Ok (b ++ map (token_of g) ids).
Proof.
  revert b. induction ids as [| i ids IH]; intros b Hin; simpl.
  - rewrite app_nil_r. reflexivity.
  - destruct (node_lookup_key (node g) i) as [a Ha]; [apply Hin; now left |].
    unfold token_of at 1. rewrite Ha. simpl.
    rewrite IH by (intros j Hj; apply Hin; now right).
    rewrite <- app_assoc. reflexivity.
Qed.

Lemma map_id_token_of g ids : map id (map (token_of g) ids) = ids.
Proof.
  induction ids as [| i ids IH]; simpl; [reflexivity |]. rewrite IH. f_equal.
  unfold token_of. destruct (node_lookup (node g) i); reflexivity.
Qed.

(** A graph with at least one node has an initial configuration: its
    first node alone on the stack, the others in the buffer, no arcs. *)
Lemma initialize_from_graph_ok g i rest :
  nodes g = i :: rest ->
  initialize_from_graph g
  = Ok (mkArcState (map (token_of g) rest) [token_of g i] [] false).
Proof.
  intros Hn. unfold initialize_from_graph.
  rewrite build_buffer_ok by auto. rewrite Hn. reflexivity.
Qed.

(** ** The root is never a dependent *)

(** C8: from the initial configuration of a sentence whose first token is
    the root, id 0, and whose other tokens have other ids, every
    configuration reached through actions that [valid_action] accepted has
    no arc (h, 0). *)
Theorem root_never_dependent g rest :
  nodes g = 0%Z :: rest -> ~ In 0%Z rest ->
  exists st0,
    initialize_from_graph g = Ok st0
    /\ forall st, reachable st0 st -> forall h, ~ In (h, 0%Z) (relations st).
Proof.
  intros Hn Hrest. eexists. split; [apply (initialize_from_graph_ok g 0 rest Hn) |].
  intros st Hreach.
  cut ((forall h, ~ In (h, 0%Z) (relations st))
       /\ (forall b, In b (buffer st) -> id b <> 0%Z)); [tauto |].
  induction Hreach as [| st a st' _ [IHrel IHbuf] Hvalid Hdo].
  - simpl. split; [tauto |]. intros b Hb Hid. apply Hrest.
    rewrite <- (map_id_token_of g rest), <- Hid. apply in_map. exact Hb.
  - apply do_action_ok in Hdo as [[-> H] | [[-> H] | [[-> H] | [-> H]]]].
    + apply arc_left_ok in H as (s & ss & b & bs & Hs & Hb & ->). simpl.
      split; [| exact IHbuf].
      intros h [Hin | Hin]%in_app_or; [exact (IHrel h Hin) |].
      destruct Hin as [[= _ Hid] | []].
      apply valid_action_arc_left_iff in Hvalid as (s' & ? & ? & ? & Hs' & _ & Hne).
      rewrite Hs in Hs'. injection Hs' as <- _. contradiction.
    + apply arc_right_ok in H as (s & ss & b & bs & Hs & Hb & ->). simpl.
      split.
      * intros h [Hin | Hin]%in_app_or; [exact (IHrel h Hin) |].
        destruct Hin as [[= _ Hid] | []].
        apply (IHbuf b); [rewrite Hb; now left | exact Hid].
      * intros b' Hb'. apply IHbuf. rewrite Hb. now right.
    + apply shift_ok in H as (b & bs & Hb & ->). simpl.
      split; [exact IHrel |].
      intros b' Hb'. apply IHbuf. rewrite Hb. now right.
    + apply reduce_ok in H as (s & ss & Hs & ->). simpl. auto.
Qed.

Lemma root_never_dependent_witness :
  nodes bob_saw_alice = [0%Z; 1%Z; 2%Z; 3%Z]
  /\ ~ In 0%Z [1%Z; 2%Z; 3%Z]
  /\ exists st0,
       initialize_from_graph bob_saw_alice = Ok st0
       /\ forall st, reachable st0 st -> forall h, ~ In (h, 0%Z) (relations st).
Proof.
  split; [reflexivity |]. split; [simpl; lia |].
  apply (root_never_dependent bob_saw_alice [1%Z; 2%Z; 3%Z]).
  - reflexivity.
  - simpl. lia.
Defined.

(** ** The canonical derivation *)

Lemma has_edge_In g u v : has_edge g u v = true <-> In (u, v) (edges g).
Proof.
  unfold has_edge. rewrite existsb_exists. split.
  - intros ([a b] & Hin & H). simpl in H.
    apply andb_true_iff in H as [->%Z.eqb_eq ->%Z.eqb_eq]. exact Hin.
  - intros Hin. exists (u, v). simpl. rewrite !Z.eqb_refl. auto.
Qed.

Lemma root_headless_spec g h : root_headless g = true -> has_edge g h 0 = false.
Proof.
  intros Hroot. destruct (has_edge g h 0) eqn:E; [| reflexivity].
  apply has_edge_In in E. unfold root_headless in Hroot.
  rewrite forallb_forall in Hroot. specialize (Hroot _ E). discriminate.
Qed.

Lemma projective_spec g a b c d :
  projective g = true ->
  has_edge g a b = true -> has_edge g c d = true ->
  ~ (Z.min a b < Z.min c d < Z.max a b /\ Z.max a b < Z.max c d)%Z.
Proof.
  intros Hp Hab%has_edge_In Hcd%has_edge_In. unfold projective in Hp.
  rewrite forallb_forall in Hp. specialize (Hp _ Hab).
  rewrite forallb_forall in Hp. specialize (Hp _ Hcd).
  unfold crossing in Hp. simpl in Hp. intros [[H1 H2] H3].
  apply Z.ltb_lt in H1, H2, H3. rewrite H1, H2, H3 in Hp. discriminate.
Qed.

Lemma increasing_sorted ids : increasing ids = true -> StronglySorted Z.lt ids.
Proof.
  intros H. apply Sorted.Sorted_StronglySorted; [exact Z.lt_trans |].
  induction ids as [| i ids IH]; [constructor |].
  destruct ids as [| j ids]; [repeat constructor |].
  simpl in H. apply andb_true_iff in H as [Hij Hrest].
  constructor; [apply IH; exact Hrest |]. constructor. apply Z.ltb_lt. exact Hij.
Qed.

(** The initial configuration of a well-laid-out sentence is ordered. *)
Lemma ordered_initial g rest :
  sentence_ok (0%Z :: rest) = true ->
  ordered (mkArcState (map (token_of g) rest) [token_of g 0%Z] [] false).
Proof.
  intros Hok. unfold sentence_ok in Hok. apply andb_true_iff in Hok as [_ Hok].
  apply increasing_sorted in Hok.
  apply StronglySorted_inv in Hok as [Hrest Hall].
  rewrite Forall_forall in Hall.
  assert (Hroot : id (token_of g 0%Z) = 0%Z).
  { unfold token_of. destruct (node_lookup (node g) 0); reflexivity. }
  assert (Hbuf : forall b, In b (map (token_of g) rest) -> (0 < id b)%Z).
  { intros b Hb. apply Hall. apply list_elem_of_In.
    rewrite <- (map_id_token_of g rest). apply in_map. exact Hb. }
  unfold ordered. simpl. rewrite map_id_token_of. repeat split.
  - repeat constructor.
  - exact Hrest.
  - intros s b [<- | []] Hb. rewrite Hroot. apply Hbuf. exact Hb.
  - intros k [<- | Hk]; [rewrite Hroot; lia |].
    apply Z.lt_le_incl. apply Hbuf. exact Hk.
Qed.

(** Popping the stack ([arc_left], [reduce]) keeps the order. *)
Lemma ordered_pop st s ss rel v :
  ordered st -> stack st = s :: ss ->
  ordered (mkArcState (buffer st) ss rel v).
Proof.
  intros (Hst & Hbuf & Hcross & Hpos) Hs. rewrite Hs in *. unfold ordered. simpl in *.
  apply StronglySorted_inv in Hst as [Hst _]. repeat split; auto.
Qed.

(** Moving the buffer head onto the stack ([arc_right], [shift]) keeps the
    order. *)
Lemma ordered_push st b bs rel v :
  ordered st -> buffer st = b :: bs ->
  ordered (mkArcState bs (b :: stack st) rel v).
Proof.
  intros (Hst & Hbuf & Hcross & Hpos) Hb. rewrite Hb in *. unfold ordered. simpl in *.
  apply StronglySorted_inv in Hbuf as [Hbuf Hall]. rewrite Forall_forall in Hall.
  repeat split.
  - constructor; [exact Hst |]. apply Forall_forall. intros x Hx%list_elem_of_In.
    apply in_map_iff in Hx as (s & <- & Hs). apply Z.lt_gt. apply Hcross; auto.
  - exact Hbuf.
  - intros s b' [<- | Hs] Hb'.
    + apply Hall. apply list_elem_of_In. apply in_map. exact Hb'.
    + apply Hcross; auto.
  - intros k [<- | Hk].
    + apply Hpos. apply in_or_app. right. now left.
    + apply Hpos. apply in_app_or in Hk as [Hk | Hk]; apply in_or_app; [left | right; right]; auto.
Qed.

Lemma get_next_action_in_ACTIONS st g : In (get_next_action st g) ACTIONS.
Proof.
  unfold get_next_action, ACTIONS.
  repeat match goal with
         | |- context [match ?x with _ => _ end] => destruct x
         end; simpl; auto.
Qed.

(** An action that [valid_action] accepts is applied. *)
Lemma valid_action_applies st a :
  In a ACTIONS -> valid_action st a = true -> exists st', do_action st a = Ok st'.
Proof.
  intros Ha Hv. apply in_ACTIONS in Ha as [-> | [-> | [-> | ->]]]; unfold do_action; simpl.
  - rewrite valid_action_arc_left in Hv. unfold arc_left.
    destruct (stack st), (buffer st); try discriminate. simpl. eauto.
  - rewrite valid_action_arc_right in Hv. unfold arc_right.
    destruct (stack st), (buffer st); try discriminate. simpl. eauto.
  - rewrite valid_action_shift in Hv. unfold shift.
    destruct (buffer st); try discriminate. simpl. eauto.
  - rewrite valid_action_reduce in Hv. unfold reduce.
    destruct (stack st); try discriminate. simpl. eauto.
Qed.

(** Every transition consumes one unit of [remaining] and keeps the
    order. *)
Lemma do_action_ordered st a st' :
  ordered st -> do_action st a = Ok st' ->
  ordered st' /\ remaining st = S (remaining st').
Proof.
  intros Hord Hdo. unfold remaining.
  apply do_action_ok in Hdo as [[-> H] | [[-> H] | [[-> H] | [-> H]]]].
  - apply arc_left_ok in H as (s & ss & b & bs & Hs & Hb & ->).
    split; [eapply ordered_pop; eauto |]. simpl. rewrite Hs. simpl. lia.
  - apply arc_right_ok in H as (s & ss & b & bs & Hs & Hb & ->).
    split; [eapply ordered_push; eauto |]. simpl. rewrite Hb. simpl. lia.
  - apply shift_ok in H as (b & bs & Hb & ->).
    split; [eapply ordered_push; eauto |]. simpl. rewrite Hb. simpl. lia.
  - apply reduce_ok in H as (s & ss & Hs & ->).
    split; [eapply ordered_pop; eauto |]. simpl. rewrite Hs. simpl. lia.
Qed.

Lemma canonical_step_ordered g st st' :
  ordered st -> canonical_step g st = Some st' ->
  done st = false /\ ordered st' /\ remaining st = S (remaining st').
Proof.
  intros Hord. unfold canonical_step.
  destruct (done st); [discriminate |].
  destruct (valid_action st (get_next_action st g)); [| discriminate].
  destruct (do_action st (get_next_action st g)) as [st1 |] eqn:Hdo; [| discriminate].
  intros [= <-]. split; [reflexivity |]. eapply do_action_ordered; eauto.
Qed.

Lemma done_remaining st : done st = true <-> remaining st = 1%nat.
Proof.
  rewrite done_iff. unfold remaining.
  destruct (buffer st); simpl length.
  - intuition lia.
  - split; [intros [? _]; discriminate | lia].
Qed.

Section CanonicalDerivation.

(** A gold graph in which id 0 has no head and no two edges cross. *)
Variable g : DiGraph.
Hypothesis Hroot : root_headless g = true.
Hypothesis Hproj : projective g = true.

(** On an ordered configuration that is not terminal and still has work
    left, the action the static oracle chooses costs nothing. *)
Lemma chosen_action_cost_zero st :
  ordered st -> (1 <= remaining st)%nat -> done st = false ->
  action_cost st (get_next_action st g) g = Ok 0%Z.
Proof.
  intros (Hst & Hbuf & Hcross & Hpos) Hrem Hdone.
  unfold get_next_action.
  destruct (stack st) as [| s ss] eqn:Hs; destruct (buffer st) as [| b bs] eqn:Hb;
    simpl.
  - unfold remaining in Hrem. rewrite Hs, Hb in Hrem. simpl in Hrem. lia.
  - rewrite (action_cost_shift st g b bs Hb), Hs. reflexivity.
  - destruct ss as [| s' ss].
    + exfalso. apply not_true_iff_false in Hdone. apply Hdone.
      apply done_iff. rewrite Hs, Hb. auto.
    + simpl. rewrite (action_cost_reduce st g s (s' :: ss) Hs), Hb. reflexivity.
  - assert (Hsb : (id s < id b)%Z) by (apply Hcross; now left).
    destruct (has_edge g (id b) (id s)) eqn:Hbs.
    { assert (Hne : id s <> 0%Z).
      { intros H0. rewrite H0, root_headless_spec in Hbs by exact Hroot. discriminate. }
      rewrite (action_cost_arc_left st g s ss b bs Hs Hb Hne), Hbs. reflexivity. }
    destruct (has_edge g (id s) (id b)) eqn:Hsb'.
    { rewrite (action_cost_arc_right st g s ss b bs Hs Hb), Hsb'. reflexivity. }
    destruct (existsb _ (range 0 (id s))) eqn:Hex.
    + rewrite (action_cost_reduce st g s ss Hs), Hb.
      rewrite count_tokens_none; [reflexivity |].
      intros k [<- | Hk]; [exact Hsb' |].
      destruct (has_edge g (id s) (id k)) eqn:Hsk; [exfalso | reflexivity].
      assert (Hbk : (id b < id k)%Z).
      { simpl in Hbuf. apply StronglySorted_inv in Hbuf as [_ Hall].
        rewrite Forall_forall in Hall. apply Hall, list_elem_of_In, in_map, Hk. }
      apply existsb_range in Hex as (j & Hj & Hedge).
      apply orb_true_iff in Hedge as [Hedge | Hedge];
        apply (projective_spec g _ _ _ _ Hproj Hedge Hsk); lia.
    + rewrite (action_cost_shift st g b bs Hb), Hs.
      rewrite count_tokens_none; [reflexivity |].
      intros k [<- | Hk]; [rewrite Hbs, Hsb'; reflexivity |].
      destruct (has_edge g (id k) (id b) || has_edge g (id b) (id k)) eqn:Hkb;
        [exfalso | reflexivity].
      apply not_true_iff_false in Hex. apply Hex, existsb_range.
      exists (id k). split; [| exact Hkb]. split.
      * apply Hpos. apply in_or_app. left. now right.
      * simpl in Hst. apply StronglySorted_inv in Hst as [_ Hall].
        rewrite Forall_forall in Hall. apply Z.gt_lt.
        apply Hall, list_elem_of_In, in_map, Hk.
Qed.

(** ... so the loop takes another step. *)
Lemma canonical_step_progress st :
  ordered st -> (1 <= remaining st)%nat -> done st = false ->
  exists st', canonical_step g st = Some st'.
Proof.
  intros Hord Hrem Hdone.
  pose proof (chosen_action_cost_zero st Hord Hrem Hdone) as Hcost.
  unfold canonical_step. rewrite Hdone.
  destruct (valid_action st (get_next_action st g)) eqn:Hv.
  - destruct (valid_action_applies st _ (get_next_action_in_ACTIONS st g) Hv) as [st' ->].
    eauto.
  - rewrite (action_cost_invalid st _ g Hv) in Hcost. discriminate.
Qed.

(** The invariant holds all along the canonical path. *)
Lemma canonical_path_ordered k st0 st :
  ordered st0 -> (1 <= remaining st0)%nat ->
  canonical_path g k st0 = Some st ->
  ordered st /\ (1 <= remaining st)%nat.
Proof.
  revert st0. induction k as [| k IH]; intros st0 Hord Hrem; simpl.
  - intros [= <-]. auto.
  - destruct (canonical_step g st0) as [st1 |] eqn:Hstep; [| discriminate].
    destruct (canonical_step_ordered g st0 st1 Hord Hstep) as (Hdone & Hord1 & Hrem1).
    apply IH; [exact Hord1 |].
    destruct (remaining st1) eqn:E; [| lia].
    exfalso. apply not_true_iff_false in Hdone. apply Hdone, done_remaining. lia.
Qed.

(** From an ordered configuration the path reaches a terminal one after
    exactly [remaining - 1] transitions. *)
Lemma canonical_path_reaches_done n st :
  ordered st -> remaining st = S n ->
  exists st', canonical_path g n st = Some st' /\ done st' = true.
Proof.
  revert st. induction n as [| n IH]; intros st Hord Hrem.
  - exists st. split; [reflexivity |]. apply done_remaining. exact Hrem.
  - assert (Hdone : done st = false).
    { apply not_true_iff_false. intros H%done_remaining. lia. }
    destruct (canonical_step_progress st Hord ltac:(lia) Hdone) as [st1 Hstep].
    destruct (canonical_step_ordered g st st1 Hord Hstep) as (_ & Hord1 & Hrem1).
    simpl. rewrite Hstep. apply IH; [exact Hord1 | lia].
Qed.

End CanonicalDerivation.

Lemma well_formed_projective_parts g :
  well_formed_projective g = true ->
  sentence_ok (nodes g) = true /\ root_headless g = true /\ projective g = true.
Proof.
  unfold well_formed_projective. rewrite !andb_true_iff. tauto.
Qed.

Lemma sentence_ok_root ids :
  sentence_ok ids = true -> exists rest, ids = 0%Z :: rest.
Proof.
  destruct ids as [| i rest]; [discriminate |]. unfold sentence_ok.
  intros [->%Z.eqb_eq _]%andb_true_iff. eauto.
Qed.

(** C4: for a well-formed projective gold tree, the initial configuration
    exists, and at every configuration of the canonical path from it that
    is not yet terminal, the action chosen by [get_next_action] has
    cost 0. *)
Theorem canonical_path_cost_zero g :
  well_formed_projective g = true ->
  exists st0,
    initialize_from_graph g = Ok st0
    /\ forall k st,
         canonical_path g k st0 = Some st -> done st = false ->
         action_cost st (get_next_action st g) g = Ok 0%Z.
Proof.
  intros (Hsent & Hroot & Hproj)%well_formed_projective_parts.
  destruct (sentence_ok_root _ Hsent) as [rest Hn].
  eexists. split; [apply (initialize_from_graph_ok g 0 rest Hn) |].
  intros k st Hpath Hdone.
  rewrite Hn in Hsent. pose proof (ordered_initial g rest Hsent) as Hord0.
  destruct (canonical_path_ordered g k _ st Hord0) as [Hord Hrem]; [| exact Hpath |].
  - unfold remaining. simpl. lia.
  - apply chosen_action_cost_zero; assumption.
Qed.

Lemma canonical_path_cost_zero_witness :
  well_formed_projective bob_saw_alice = true
  /\ exists st0,
       initialize_from_graph bob_saw_alice = Ok st0
       /\ forall k st,
            canonical_path bob_saw_alice k st0 = Some st -> done st = false ->
            action_cost st (get_next_action st bob_saw_alice) bob_saw_alice = Ok 0%Z.
Proof.
  split; [vm_compute; reflexivity |].
  apply (canonical_path_cost_zero bob_saw_alice). vm_compute. reflexivity.
Defined.

(** C5: for a sentence of n words (the root not counted) with a
    well-formed projective gold tree, the canonical path from the initial
    configuration reaches a terminal configuration, with an empty buffer
    and exactly one token on the stack, after at most 2n transitions. *)
Theorem canonical_path_terminates g :
  well_formed_projective g = true ->
  exists st0 k st,
    initialize_from_graph g = Ok st0
    /\ (k <= 2 * (length (nodes g) - 1))%nat
    /\ canonical_path g k st0 = Some st
    /\ done st = true
    /\ buffer st = [] /\ length (stack st) = 1%nat.
Proof.
  intros (Hsent & Hroot & Hproj)%well_formed_projective_parts.
  destruct (sentence_ok_root _ Hsent) as [rest Hn].
  rewrite Hn in Hsent. pose proof (ordered_initial g rest Hsent) as Hord0.
  destruct (canonical_path_reaches_done g Hroot Hproj (2 * length rest) _ Hord0)
    as (st & Hpath & Hdone).
  { unfold remaining. simpl. rewrite length_map. lia. }
  eexists. exists (2 * length rest)%nat, st.
  split; [apply (initialize_from_graph_ok g 0 rest Hn) |].
  split; [rewrite Hn; simpl; lia |].
  split; [exact Hpath |]. split; [exact Hdone |].
  apply done_iff. exact Hdone.
Qed.

Lemma canonical_path_terminates_witness :
  well_formed_projective bob_saw_alice = true
  /\ exists st0 k st,
       initialize_from_graph bob_saw_alice = Ok st0
       /\ (k <= 2 * (length (nodes bob_saw_alice) - 1))%nat
       /\ canonical_path bob_saw_alice k st0 = Some st
       /\ done st = true
       /\ buffer st = [] /\ length (stack st) = 1%nat.
Proof.
  split; [vm_compute; reflexivity |].
  apply (canonical_path_terminates bob_saw_alice). vm_compute. reflexivity.
Defined.

(** The canonical run of "Bob saw Alice": shift, left arc, two right arcs
    and two reductions, six transitions for three words. *)
Example canonical_path_bob_saw_alice :
  canonical_path bob_saw_alice 6 bob_saw_alice_initial
  = Some (mkArcState [] [root_node] [(2%Z, 1%Z); (0%Z, 2%Z); (2%Z, 3%Z)] false).
Proof. reflexivity. Qed.

(** ** The store layer simulates the value layer *)

Lemma NoDup_three (a b c : positive) :
  a <> b -> a <> c -> b <> c -> NoDup [a; b; c].
Proof.
  intros Hab Hac Hbc. apply NoDup_ListNoDup.
  repeat constructor; simpl; intuition.
Qed.

(** Every transition starts with three fresh list objects holding copies
    of the three sequences. *)
Lemma store_copies σ r p :
  represents σ r p ->
  exists l1 l2 l3,
    (forall A (k : positive -> positive -> positive -> Store.M A),
       Store.bind (Store.list_copy (Store.buffer r)) (fun nb =>
       Store.bind (Store.list_copy (Store.stack r)) (fun ns =>
       Store.bind (Store.list_copy (Store.relations r)) (fun nr => k nb ns nr))) σ
       = k l1 l2 l3
           (<[l3 := map Store.PyTuple (relations p)]>
              (<[l2 := map Store.PyNode (stack p)]>
                 (<[l1 := map Store.PyNode (buffer p)]> σ))))
    /\ (l1 ∉ dom σ) /\ (l2 ∉ dom σ) /\ (l3 ∉ dom σ)
    /\ l1 <> l2 /\ l1 <> l3 /\ l2 <> l3
    /\ (forall l, l ∈ dom σ -> l <> l1 /\ l <> l2 /\ l <> l3).
Proof.
  intros (Hb & Hs & Hr & _).
  set (l1 := fresh (dom σ)).
  set (σ1 := <[l1 := map Store.PyNode (buffer p)]> σ).
  set (l2 := fresh (dom σ1)).
  set (σ2 := <[l2 := map Store.PyNode (stack p)]> σ1).
  set (l3 := fresh (dom σ2)).
  assert (H1 : l1 ∉ dom σ) by apply is_fresh.
  assert (H2 : l2 ∉ dom σ1) by apply is_fresh.
  assert (H3 : l3 ∉ dom σ2) by apply is_fresh.
  unfold σ2 in H3. unfold σ1 in H2, H3.
  rewrite dom_insert_L in H2. rewrite !dom_insert_L in H3.
  apply not_elem_of_union in H2 as [H21%not_elem_of_singleton H2].
  apply not_elem_of_union in H3 as [H32%not_elem_of_singleton H3].
  apply not_elem_of_union in H3 as [H31%not_elem_of_singleton H3].
  assert (Hsd : Store.stack r ∈ dom σ) by (apply elem_of_dom; eauto).
  assert (Hrd : Store.relations r ∈ dom σ) by (apply elem_of_dom; eauto).
  exists l1, l2, l3.
  split; [| repeat split; auto; intros ->; contradiction].
  intros A k. unfold Store.bind, Store.list_copy.
  rewrite Hb. fold l1. fold σ1.
  assert (σ1 !! Store.stack r = Some (map Store.PyNode (stack p))) as ->.
  { unfold σ1. rewrite lookup_insert_ne by (intros E; apply H1; rewrite E; exact Hsd).
    exact Hs. }
  fold l2. fold σ2.
  assert (σ2 !! Store.relations r = Some (map Store.PyTuple (relations p))) as ->.
  { unfold σ2, σ1.
    rewrite !lookup_insert_ne
      by (intros E; first [apply H1; rewrite E; exact Hrd | apply H2; rewrite E; exact Hrd]).
    exact Hr. }
  reflexivity.
Qed.

Ltac store_lookup :=
  repeat first
    [ rewrite lookup_insert_eq
    | rewrite lookup_insert_ne by congruence ].

Ltac store_run Hb Hs Hr :=
  unfold Store.bind, Store.list_len, Store.list_index0, Store.list_append,
    Store.list_pop0, Store.list_insert0, Store.attr_id, Store.raise, Store.ret;
  repeat (progress (store_lookup; rewrite ?Hb, ?Hs, ?Hr; simpl)).

(** Sets up a simulation proof: the three copies, and the facts that tell
    the new references from each other and from those of the store. *)
Ltac store_start Hrep l1 l2 l3 Hk Hold Hb Hs Hr :=
  let H1 := fresh "H1" in let H2 := fresh "H2" in let H3 := fresh "H3" in
  let H12 := fresh "H12" in let H13 := fresh "H13" in let H23 := fresh "H23" in
  let Hv := fresh "Hv" in
  destruct (store_copies _ _ _ Hrep)
    as (l1 & l2 & l3 & Hk & H1 & H2 & H3 & H12 & H13 & H23 & Hold);
  destruct Hrep as (Hb & Hs & Hr & Hv);
  destruct (Hold _ (proj2 (elem_of_dom _ _) (ex_intro _ _ Hb))) as (? & ? & ?);
  destruct (Hold _ (proj2 (elem_of_dom _ _) (ex_intro _ _ Hs))) as (? & ? & ?);
  destruct (Hold _ (proj2 (elem_of_dom _ _) (ex_intro _ _ Hr))) as (? & ? & ?).

Ltac store_frame Hold :=
  let l := fresh "l" in let Hl := fresh "Hl" in
  intros l Hl; destruct (Hold l Hl) as (? & ? & ?); store_lookup; reflexivity.

Ltac store_fresh :=
  unfold fresh_in; simpl; repeat split; auto; apply NoDup_three; auto.

Lemma store_arc_left σ r p :
  represents σ r p -> simulates σ (Store.arc_left r) (arc_left p).
Proof.
  intros Hrep. store_start Hrep l1 l2 l3 Hk Hold Hb Hs Hr.
  unfold simulates, arc_left, Store.arc_left.
  destruct (stack p) as [| s ss]; [| destruct (buffer p) as [| b bs]]; simpl;
    eexists; split.
  2, 4: rewrite Hk; store_run Hb Hs Hr; reflexivity.
  4: { eexists. split; [| split].
       - rewrite Hk. store_run Hb Hs Hr. reflexivity.
       - unfold represents. simpl. store_lookup. rewrite map_app. auto.
       - store_fresh. }
  all: store_frame Hold.
Qed.

Lemma store_arc_right σ r p :
  represents σ r p -> simulates σ (Store.arc_right r) (arc_right p).
Proof.
  intros Hrep. store_start Hrep l1 l2 l3 Hk Hold Hb Hs Hr.
  unfold simulates, arc_right, Store.arc_right.
  destruct (stack p) as [| s ss]; [| destruct (buffer p) as [| b bs]]; simpl;
    eexists; split.
  2, 4: rewrite Hk; store_run Hb Hs Hr; reflexivity.
  4: { eexists. split; [| split].
       - rewrite Hk. store_run Hb Hs Hr. reflexivity.
       - unfold represents. simpl. store_lookup. rewrite map_app. auto.
       - store_fresh. }
  all: store_frame Hold.
Qed.

Lemma store_shift σ r p :
  represents σ r p -> simulates σ (Store.shift r) (shift p).
Proof.
  intros Hrep. store_start Hrep l1 l2 l3 Hk Hold Hb Hs Hr.
  unfold simulates, shift, Store.shift.
  destruct (buffer p) as [| b bs]; simpl; eexists; split.
  2: rewrite Hk; store_run Hb Hs Hr; reflexivity.
  3: { eexists. split; [| split].
       - rewrite Hk. store_run Hb Hs Hr. reflexivity.
       - unfold represents. simpl. store_lookup. auto.
       - store_fresh. }
  all: store_frame Hold.
Qed.

Lemma store_reduce σ r p :
  represents σ r p -> simulates σ (Store.reduce r) (reduce p).
Proof.
  intros Hrep. store_start Hrep l1 l2 l3 Hk Hold Hb Hs Hr.
  unfold simulates, reduce, Store.reduce.
  destruct (stack p) as [| s ss]; simpl; eexists; split.
  2: rewrite Hk; store_run Hb Hs Hr; reflexivity.
  3: { eexists. split; [| split].
       - rewrite Hk. store_run Hb Hs Hr. reflexivity.
       - unfold represents. simpl. store_lookup. auto.
       - store_fresh. }
  all: store_frame Hold.
Qed.

(** [do_action] over the store does what [do_action] over values does. *)
Lemma store_do_action σ r p a :
  represents σ r p -> simulates σ (Store.do_action r a) (do_action p a).
Proof.
  intros Hrep. unfold Store.do_action, do_action.
  destruct (a =? ARC_LEFT)%Z; [apply store_arc_left; exact Hrep |].
  destruct (a =? ARC_RIGHT)%Z; [apply store_arc_right; exact Hrep |].
  destruct (a =? SHIFT)%Z; [apply store_shift; exact Hrep |].
  destruct (a =? REDUCE)%Z; [apply store_reduce; exact Hrep |].
  exists σ. split; [reflexivity | reflexivity].
Qed.

(** C9: applying a legal action returns a configuration made of three new
    list objects, distinct from each other and from every list the store
    held before, and leaves every list of the store, so the buffer, the
    stack and the arcs of the predecessor, as it was. *)
Theorem transition_returns_new_configuration σ r p a :
  represents σ r p -> In a ACTIONS -> valid_action p a = true ->
  exists r' σ' p',
    Store.do_action r a σ = Some (Ok r', σ')
    /\ do_action p a = Ok p'
    /\ represents σ' r' p'
    /\ represents σ' r p
    /\ (forall l, l ∈ dom σ -> σ' !! l = σ !! l)
    /\ fresh_in σ r'.
Proof.
  intros Hrep Ha Hv.
  destruct (valid_action_applies p a Ha Hv) as [p' Hp'].
  destruct (store_do_action σ r p a Hrep) as (σ' & Hframe & Hout).
  rewrite Hp' in Hout. destruct Hout as (r' & Hrun & Hrep' & Hfresh).
  exists r', σ', p'.
  split; [exact Hrun |]. split; [exact Hp' |]. split; [exact Hrep' |].
  split; [| split; [exact Hframe | exact Hfresh]].
  destruct Hrep as (Hb & Hs & Hr & Hverb). unfold represents.
  rewrite !Hframe by (apply elem_of_dom; eauto). auto.
Qed.

Lemma transition_returns_new_configuration_witness :
  represents {[1%positive := map Store.PyNode [bob; saw; alice];
               2%positive := map Store.PyNode [root_node];
               3%positive := []]}
             (Store.mkArcState 1 2 3 false) bob_saw_alice_initial
  /\ In SHIFT ACTIONS
  /\ valid_action bob_saw_alice_initial SHIFT = true
  /\ exists r' σ' p',
       Store.do_action (Store.mkArcState 1 2 3 false) SHIFT
         {[1%positive := map Store.PyNode [bob; saw; alice];
           2%positive := map Store.PyNode [root_node];
           3%positive := []]}
       = Some (Ok r', σ')
       /\ do_action bob_saw_alice_initial SHIFT = Ok p'
       /\ represents σ' r' p'
       /\ represents σ' (Store.mkArcState 1 2 3 false) bob_saw_alice_initial
       /\ (forall l,
             l ∈ dom ({[1%positive := map Store.PyNode [bob; saw; alice];
                        2%positive := map Store.PyNode [root_node];
                        3%positive := []]} : gmap positive (list Store.pyval)) ->
             σ' !! l
             = ({[1%positive := map Store.PyNode [bob; saw; alice];
                  2%positive := map Store.PyNode [root_node];
                  3%positive := []]} : gmap positive (list Store.pyval)) !! l)
       /\ fresh_in {[1%positive := map Store.PyNode [bob; saw; alice];
                     2%positive := map Store.PyNode [root_node];
                     3%positive := []]} r'.
Proof.
  assert (Hrep : represents
                   {[1%positive := map Store.PyNode [bob; saw; alice];
                     2%positive := map Store.PyNode [root_node];
                     3%positive := []]}
                   (Store.mkArcState 1 2 3 false) bob_saw_alice_initial).
  { unfold represents. simpl. repeat split; reflexivity. }
  assert (Ha : In SHIFT ACTIONS) by (unfold ACTIONS; simpl; auto).
  split; [exact Hrep |]. split; [exact Ha |]. split; [reflexivity |].
  apply (transition_returns_new_configuration _ _ _ SHIFT Hrep Ha). reflexivity.
Defined.

(** ** Rooted gold trees *)

Lemma reaches_root_below g fuel x :
  reaches_root g fuel x = true -> below_root g x.
Proof.
  revert x. induction fuel as [| fuel IH]; intros x; simpl.
  - destruct (Z.eqb_spec x 0) as [-> |]; [constructor | discriminate].
  - destruct (Z.eqb_spec x 0) as [-> |]; [constructor |].
    intros (h & _ & Hh)%existsb_exists.
    destruct (has_edge g h x) eqn:E; [| discriminate].
    apply (below_root_head g h x E). apply IH. exact Hh.
Qed.

Lemma rooted_below g x : rooted g = true -> In x (nodes g) -> below_root g x.
Proof.
  unfold rooted. rewrite forallb_forall. intros H Hx.
  apply (reaches_root_below g (length (nodes g))). apply H. exact Hx.
Qed.

Lemma mem_id_In i ids : mem_id i ids = true -> In i ids.
Proof.
  unfold mem_id. intros (j & Hj & ->%Z.eqb_eq)%existsb_exists. exact Hj.
Qed.

Lemma edges_in_sentence_spec g h d :
  edges_in_sentence g = true -> has_edge g h d = true ->
  In h (nodes g) /\ In d (nodes g).
Proof.
  unfold edges_in_sentence. rewrite forallb_forall.
  intros H Hedge%has_edge_In. specialize (H _ Hedge). simpl in H.
  apply andb_true_iff in H as [Hh Hd]. split; apply mem_id_In; assumption.
Qed.

(** With one incoming edge per token, the head of a token is unique. *)
Lemma single_headed_unique g h h' d :
  edges_in_sentence g = true -> root_headless g = true -> single_headed g = true ->
  has_edge g h d = true -> has_edge g h' d = true -> h = h'.
Proof.
  intros Hin Hroot Hone Hh Hh'.
  destruct (edges_in_sentence_spec g h d Hin Hh) as [Hhn Hdn].
  destruct (edges_in_sentence_spec g h' d Hin Hh') as [Hhn' _].
  unfold single_headed in Hone. rewrite forallb_forall in Hone.
  specialize (Hone d Hdn). apply orb_true_iff in Hone as [Hd0 | Hlen].
  - apply Z.eqb_eq in Hd0. subst d. rewrite root_headless_spec in Hh by exact Hroot.
    discriminate.
  - apply Nat.eqb_eq in Hlen.
    assert (Hf : forall x, In x (nodes g) -> has_edge g x d = true ->
                   x ∈ filter (fun h0 => has_edge g h0 d = true) (nodes g)).
    { intros x Hx Hxd. apply list_elem_of_filter. split; [exact Hxd |].
      apply list_elem_of_In. exact Hx. }
    pose proof (Hf h Hhn Hh) as H1. pose proof (Hf h' Hhn' Hh') as H2.
    destruct (filter _ (nodes g)) as [| y [| z l]]; try discriminate.
    apply list_elem_of_singleton in H1, H2. congruence.
Qed.

(** ** The canonical derivation rebuilds the gold tree *)

Lemma has_id_cons x k ks : has_id x (k :: ks) <-> x = id k \/ has_id x ks.
Proof. unfold has_id. simpl. intuition. Qed.

Lemma has_id_In x ks : has_id x ks <-> exists k, In k ks /\ id k = x.
Proof.
  unfold has_id. rewrite in_map_iff. split; intros (k & H1 & H2); exists k; auto.
Qed.

(** Moving the buffer head [b] onto the stack keeps [collected], provided
    the gold arcs between [b] and the stack, and a gold arc from [b] to
    itself, are recorded. *)
Lemma collected_push g st b bs rel v :
  collected g st -> buffer st = b :: bs ->
  (forall h d, In (h, d) rel -> has_edge g h d = true) ->
  (forall h d, In (h, d) (relations st) -> In (h, d) rel) ->
  (forall h d, has_edge g h d = true ->
     (h = id b /\ has_id d (stack st)) \/ (d = id b /\ has_id h (stack st))
     \/ (h = id b /\ d = id b) ->
     In (h, d) rel) ->
  collected g (mkArcState bs (b :: stack st) rel v).
Proof.
  intros [_ Hall] Hb Hgold Hkeep Hnew. split; [exact Hgold |]. simpl.
  intros h d Hedge. specialize (Hall h d Hedge). rewrite Hb in Hall.
  rewrite !has_id_cons in Hall. rewrite !has_id_cons.
  destruct Hall as [Hin | (Hh & Hd & Hone)]; [left; auto |].
  destruct (in_dec Z.eq_dec h (map id bs)) as [Hhb | Hhb];
    [right; repeat split; tauto |].
  destruct (in_dec Z.eq_dec d (map id bs)) as [Hdb | Hdb];
    [right; repeat split; tauto |].
  left. apply Hnew; [exact Hedge |]. unfold has_id in *. tauto.
Qed.

(** Popping the stack top [s] keeps [collected], provided the gold arcs
    between [s] and the buffer are recorded. *)
Lemma collected_pop g st s ss rel v :
  collected g st -> stack st = s :: ss ->
  (forall h d, In (h, d) rel -> has_edge g h d = true) ->
  (forall h d, In (h, d) (relations st) -> In (h, d) rel) ->
  (forall h d, has_edge g h d = true ->
     (h = id s /\ has_id d (buffer st)) \/ (d = id s /\ has_id h (buffer st)) ->
     In (h, d) rel) ->
  collected g (mkArcState (buffer st) ss rel v).
Proof.
  intros [_ Hall] Hs Hgold Hkeep Hnew. split; [exact Hgold |]. simpl.
  intros h d Hedge. specialize (Hall h d Hedge). rewrite Hs in Hall.
  rewrite !has_id_cons in Hall.
  destruct Hall as [Hin | (Hh & Hd & Hone)]; [left; auto |].
  destruct Hh as [Hh | [Hh | Hh]]; destruct Hd as [Hd | [Hd | Hd]];
    try (right; tauto);
    destruct Hone as [Hone | Hone];
    try (right; tauto);
    left; apply Hnew; auto.
Qed.

Section GoldTree.

(** A projective gold tree: no head for id 0, no crossing edges, no
    negative ids, at most one head per token, every token with a head
    hanging below the root. *)
Variable g : DiGraph.
Hypothesis Hroot : root_headless g = true.
Hypothesis Hproj : projective g = true.
Hypothesis Hnonneg : forall h d, has_edge g h d = true -> (0 <= h)%Z /\ (0 <= d)%Z.
Hypothesis Hone :
  forall h h' d, has_edge g h d = true -> has_edge g h' d = true -> h = h'.
Hypothesis Hbelow : forall h d, has_edge g h d = true -> below_root g d.

(** Following heads from inside a span whose two ends have their heads
    inside it never leaves the span, so never reaches the root. *)
Lemma span_closed a c :
  (0 < a)%Z -> (a <= c)%Z ->
  (a < c -> has_edge g a c = true \/ has_edge g c a = true)%Z ->
  (forall h, has_edge g h a = true -> a <= h <= c)%Z ->
  (forall h, has_edge g h c = true -> a <= h <= c)%Z ->
  forall x, below_root g x -> (a <= x <= c)%Z -> False.
Proof.
  intros Ha Hac Harc Hheada Hheadc x Hx.
  induction Hx as [| h x Hedge _ IH]; intros Hin; [lia |].
  apply IH.
  destruct (Z.eq_dec x a) as [-> | Hxa]; [auto |].
  destruct (Z.eq_dec x c) as [-> | Hxc]; [auto |].
  destruct Harc as [Harc | Harc]; [lia | |].
  - pose proof (projective_spec g _ _ _ _ Hproj Hedge Harc).
    pose proof (projective_spec g _ _ _ _ Hproj Harc Hedge). lia.
  - pose proof (projective_spec g _ _ _ _ Hproj Hedge Harc).
    pose proof (projective_spec g _ _ _ _ Hproj Harc Hedge). lia.
Qed.

(** No span has the heads of both its ends inside it. *)
Lemma no_closed_span a c x y :
  (a <= c)%Z ->
  (a < c -> has_edge g a c = true \/ has_edge g c a = true)%Z ->
  has_edge g x a = true -> (a <= x <= c)%Z ->
  has_edge g y c = true -> (a <= y <= c)%Z ->
  False.
Proof.
  intros Hac Harc Hxa Hx Hyc Hy.
  assert (Ha : (0 < a)%Z).
  { destruct (Hnonneg _ _ Hxa) as [_ Ha]. destruct (Z.eq_dec a 0%Z) as [-> |]; [| lia].
    rewrite root_headless_spec in Hxa by exact Hroot. discriminate. }
  apply (span_closed a c Ha Hac Harc) with (x := a).
  - intros h Hh. rewrite (Hone _ _ _ Hh Hxa). exact Hx.
  - intros h Hh. rewrite (Hone _ _ _ Hh Hyc). exact Hy.
  - apply (Hbelow _ _ Hxa).
  - lia.
Qed.

Lemma no_self_loop x : has_edge g x x = true -> False.
Proof.
  intros H. apply (no_closed_span x x x x); auto; lia.
Qed.

(** One step of the driver loop keeps [collected]. *)
Lemma canonical_step_collected st st' :
  ordered st -> collected g st -> canonical_step g st = Some st' ->
  collected g st'.
Proof.
  intros (Hst & Hbuf & Hcross & Hpos) Hcol. unfold canonical_step.
  destruct (done st) eqn:Hdone; [discriminate |].
  destruct (valid_action st (get_next_action st g)) eqn:Hvalid; [| discriminate].
  destruct (do_action st (get_next_action st g)) as [st1 |] eqn:Hdo; [| discriminate].
  intros [= ->]. revert Hvalid Hdo. unfold get_next_action.
  destruct (stack st) as [| s ss] eqn:Hs; destruct (buffer st) as [| b bs] eqn:Hb;
    simpl.
  - rewrite valid_action_shift, Hb. discriminate.
  - (* empty stack: shift *)
    intros _ Hdo. unfold do_action in Hdo. simpl in Hdo.
    apply shift_ok in Hdo as (b' & bs' & Hb' & ->).
    rewrite Hb in Hb'. injection Hb' as <- <-.
    apply (collected_push g st b bs); auto; [apply Hcol |].
    rewrite Hs. intros h d Hedge [[_ []] | [[_ []] | [-> ->]]].
    destruct (no_self_loop _ Hedge).
  - (* empty buffer: reduce *)
    destruct ss as [| s' ss]; simpl.
    + exfalso. apply not_true_iff_false in Hdone. apply Hdone.
      apply done_iff. rewrite Hs, Hb. auto.
    + intros _ Hdo. unfold do_action in Hdo. simpl in Hdo.
      apply reduce_ok in Hdo as (s0 & ss0 & Hs0 & ->).
      rewrite Hs in Hs0. injection Hs0 as <- <-.
      apply (collected_pop g st s (s' :: ss)); auto; [apply Hcol |].
      rewrite Hb. intros h d _ [[_ []] | [_ []]].
  - assert (Hsb : (id s < id b)%Z) by (apply Hcross; now left).
    assert (Hbelow_s : forall k, In k ss -> (0 <= id k < id s)%Z).
    { intros k Hk. split.
      - apply Hpos. apply in_or_app. left. now right.
      - simpl in Hst. apply StronglySorted_inv in Hst as [_ Hall].
        rewrite Forall_forall in Hall. apply Z.gt_lt.
        apply Hall, list_elem_of_In, in_map, Hk. }
    assert (Habove_b : forall k, In k bs -> (id b < id k)%Z).
    { intros k Hk. simpl in Hbuf. apply StronglySorted_inv in Hbuf as [_ Hall].
      rewrite Forall_forall in Hall. apply Hall, list_elem_of_In, in_map, Hk. }
    destruct (has_edge g (id b) (id s)) eqn:Hbs.
    { (* left arc *)
      intros _ Hdo. unfold do_action in Hdo. simpl in Hdo.
      apply arc_left_ok in Hdo as (s0 & ss0 & b0 & bs0 & Hs0 & Hb0 & ->).
      rewrite Hs in Hs0. rewrite Hb in Hb0. injection Hs0 as <- <-.
      injection Hb0 as <- <-.
      apply (collected_pop g st s ss); auto.
      - intros h d [Hin | [[= <- <-] | []]]%in_app_or; [apply Hcol; exact Hin | exact Hbs].
      - intros h d Hin. apply in_or_app. now left.
      - rewrite Hb. intros h d Hedge [[-> Hd] | [-> Hh]].
        + exfalso. apply has_id_cons in Hd as [-> | (k & Hk & <-)%has_id_In].
          * apply (no_closed_span (id s) (id b) (id b) (id s)); auto; lia.
          * pose proof (Habove_b k Hk).
            apply (no_closed_span (id s) (id k) (id b) (id s)); auto; lia.
        + apply in_or_app. right. left.
          rewrite (Hone _ _ _ Hedge Hbs). reflexivity. }
    destruct (has_edge g (id s) (id b)) eqn:Hsb'.
    { (* right arc *)
      intros _ Hdo. unfold do_action in Hdo. simpl in Hdo.
      apply arc_right_ok in Hdo as (s0 & ss0 & b0 & bs0 & Hs0 & Hb0 & ->).
      rewrite Hs in Hs0. rewrite Hb in Hb0. injection Hs0 as <- <-.
      injection Hb0 as <- <-.
      apply (collected_push g st b bs); auto.
      - intros h d [Hin | [[= <- <-] | []]]%in_app_or; [apply Hcol; exact Hin | exact Hsb'].
      - intros h d Hin. apply in_or_app. now left.
      - rewrite Hs. intros h d Hedge [[-> Hd] | [[-> Hh] | [-> ->]]].
        + exfalso. apply has_id_cons in Hd as [-> | (k & Hk & <-)%has_id_In].
          * rewrite Hbs in Hedge. discriminate.
          * pose proof (Hbelow_s k Hk).
            apply (no_closed_span (id k) (id b) (id b) (id s)); auto; lia.
        + apply in_or_app. right. left.
          rewrite (Hone _ _ _ Hedge Hsb'). reflexivity.
        + destruct (no_self_loop _ Hedge). }
    destruct (existsb _ (range 0 (id s))) eqn:Hex.
    + (* reduce *)
      intros _ Hdo. unfold do_action in Hdo. simpl in Hdo.
      apply reduce_ok in Hdo as (s0 & ss0 & Hs0 & ->).
      rewrite Hs in Hs0. injection Hs0 as <- <-.
      apply (collected_pop g st s ss); auto; [apply Hcol |].
      apply existsb_range in Hex as (j & Hj & Hjb).
      rewrite Hb. intros h d Hedge Hcase. exfalso.
      assert (Hcross' : forall m, (id b < m)%Z ->
                has_edge g (id s) m = true \/ has_edge g m (id s) = true -> False).
      { intros m Hm [Hsm | Hsm];
          apply orb_true_iff in Hjb as [Hjb | Hjb];
          apply (projective_spec g _ _ _ _ Hproj Hjb Hsm); lia. }
      destruct Hcase as [[-> Hd] | [-> Hh]].
      * apply has_id_cons in Hd as [-> | (k & Hk & <-)%has_id_In].
        -- rewrite Hsb' in Hedge. discriminate.
        -- apply (Hcross' (id k)); auto.
      * apply has_id_cons in Hh as [-> | (k & Hk & <-)%has_id_In].
        -- rewrite Hbs in Hedge. discriminate.
        -- apply (Hcross' (id k)); auto.
    + (* shift *)
      intros _ Hdo. unfold do_action in Hdo. simpl in Hdo.
      apply shift_ok in Hdo as (b0 & bs0 & Hb0 & ->).
      rewrite Hb in Hb0. injection Hb0 as <- <-.
      apply (collected_push g st b bs); auto; [apply Hcol |].
      assert (Hnone : forall k, In k ss ->
                has_edge g (id k) (id b) = true \/ has_edge g (id b) (id k) = true ->
                False).
      { intros k Hk Hedge. apply not_true_iff_false in Hex. apply Hex.
        apply existsb_range. exists (id k). split; [apply Hbelow_s; exact Hk |].
        apply orb_true_iff. exact Hedge. }
      rewrite Hs. intros h d Hedge [[-> Hd] | [[-> Hh] | [-> ->]]]; exfalso.
      * apply has_id_cons in Hd as [-> | (k & Hk & <-)%has_id_In].
        -- rewrite Hbs in Hedge. discriminate.
        -- apply (Hnone k); auto.
      * apply has_id_cons in Hh as [-> | (k & Hk & <-)%has_id_In].
        -- rewrite Hsb' in Hedge. discriminate.
        -- apply (Hnone k); auto.
      * apply (no_self_loop _ Hedge).
Qed.

Lemma canonical_path_collected k st0 st :
  ordered st0 -> collected g st0 -> canonical_path g k st0 = Some st ->
  collected g st.
Proof.
  revert st0. induction k as [| k IH]; intros st0 Hord Hcol; simpl.
  - intros [= <-]. exact Hcol.
  - destruct (canonical_step g st0) as [st1 |] eqn:Hstep; [| discriminate].
    destruct (canonical_step_ordered g st0 st1 Hord Hstep) as (_ & Hord1 & _).
    apply IH; [exact Hord1 |].
    apply (canonical_step_collected st0 st1 Hord Hcol Hstep).
Qed.

End GoldTree.

Lemma find_head_first rel i head :
  (find_head rel i head = head /\ forall h, ~ In (h, i) rel)
  \/ exists pre post,
       rel = pre ++ (find_head rel i head, i) :: post
       /\ forall h, ~ In (h, i) pre.
Proof.
  induction rel as [| [h0 d0] rel IH]; simpl.
  - left. split; [reflexivity | tauto].
  - destruct (Z.eqb_spec d0 i) as [-> | Hne].
    + right. exists [], rel. split; [reflexivity | simpl; tauto].
    + destruct IH as [[Heq Hno] | (pre & post & Heq & Hno)].
      * left. split; [exact Heq |].
        intros h [[= _ ?] | Hin]; [contradiction | exact (Hno h Hin)].
      * right. exists ((h0, d0) :: pre), post. split.
        -- simpl. rewrite <- Heq. reflexivity.
        -- intros h [[= _ ?] | Hin]; [contradiction | exact (Hno h Hin)].
Qed.

Lemma find_head_In rel i head h :
  In (h, i) rel -> In (find_head rel i head, i) rel.
Proof.
  intros Hin. destruct (find_head_first rel i head) as [[_ Hno] | (pre & post & Heq & _)].
  - destruct (Hno h Hin).
  - rewrite Heq at 2. apply in_or_app. right. now left.
Qed.

Lemma sentence_ok_nonneg ids i : sentence_ok ids = true -> In i ids -> (0 <= i)%Z.
Proof.
  intros Hok Hi. destruct (sentence_ok_root _ Hok) as [rest ->].
  unfold sentence_ok in Hok. apply andb_true_iff in Hok as [_ Hok].
  apply increasing_sorted in Hok. apply StronglySorted_inv in Hok as [_ Hall].
  rewrite Forall_forall in Hall. destruct Hi as [<- | Hi]; [lia |].
  apply Z.lt_le_incl. apply Hall, list_elem_of_In, Hi.
Qed.

Lemma single_headed_head g d :
  single_headed g = true -> In d (nodes g) -> d <> 0%Z ->
  exists h, has_edge g h d = true.
Proof.
  unfold single_headed. rewrite forallb_forall. intros Hone Hd Hne.
  specialize (Hone d Hd). apply orb_true_iff in Hone as [Hd0%Z.eqb_eq | Hlen];
    [contradiction |].
  apply Nat.eqb_eq in Hlen.
  destruct (filter _ (nodes g)) as [| y l] eqn:Hf; [discriminate |].
  exists y. assert (Hy : y ∈ filter (fun h => has_edge g h d = true) (nodes g))
    by (rewrite Hf; left).
  apply list_elem_of_filter in Hy as [Hy _]. exact Hy.
Qed.

(** In the initial configuration nothing is recorded and every gold arc can
    still be built. *)
Lemma collected_initial g rest :
  nodes g = 0%Z :: rest ->
  edges_in_sentence g = true -> root_headless g = true ->
  collected g (mkArcState (map (token_of g) rest) [token_of g 0%Z] [] false).
Proof.
  intros Hn Hin Hroot. split; simpl; [tauto |].
  intros h d Hedge. right.
  destruct (edges_in_sentence_spec g h d Hin Hedge) as [Hh Hd].
  rewrite Hn in Hh, Hd. unfold has_id. simpl. rewrite map_id_token_of.
  assert (Hid0 : id (token_of g 0%Z) = 0%Z).
  { unfold token_of. destruct (node_lookup (node g) 0); reflexivity. }
  rewrite Hid0.
  assert (Hd' : In d rest).
  { destruct Hd as [<- | Hd]; [| exact Hd].
    rewrite root_headless_spec in Hedge by exact Hroot. discriminate. }
  destruct Hh as [<- | Hh]; auto.
Qed.

(** X1: for a well-formed projective gold tree in which every token hangs
    below the root, the driver loop ends in a terminal configuration whose
    arcs are exactly the gold edges; the head the driver then reports for
    each word is its gold head. *)
Theorem canonical_path_rebuilds_gold_tree g :
  well_formed_projective g = true -> rooted g = true ->
  exists st0 k st,
    initialize_from_graph g = Ok st0
    /\ canonical_path g k st0 = Some st
    /\ done st = true
    /\ (forall h d, In (h, d) (relations st) <-> has_edge g h d = true)
    /\ (forall h d, has_edge g h d = true -> predicted_head st d = h)
    /\ (forall d, In d (nodes g) -> d <> 0%Z ->
          has_edge g (predicted_head st d) d = true).
Proof.
  intros Hwf Hrooted.
  destruct (well_formed_projective_parts g Hwf) as (Hsent & Hroot & Hproj).
  assert (Hin : edges_in_sentence g = true).
  { unfold well_formed_projective in Hwf. rewrite !andb_true_iff in Hwf. tauto. }
  assert (Hsingle : single_headed g = true).
  { unfold well_formed_projective in Hwf. rewrite !andb_true_iff in Hwf. tauto. }
  assert (Hnonneg : forall h d, has_edge g h d = true -> (0 <= h)%Z /\ (0 <= d)%Z).
  { intros h d Hedge. destruct (edges_in_sentence_spec g h d Hin Hedge).
    split; apply (sentence_ok_nonneg (nodes g)); assumption. }
  assert (Hone : forall h h' d,
            has_edge g h d = true -> has_edge g h' d = true -> h = h').
  { intros h h' d. apply single_headed_unique; assumption. }
  assert (Hbelow : forall h d, has_edge g h d = true -> below_root g d).
  { intros h d Hedge. apply rooted_below; [exact Hrooted |].
    apply (edges_in_sentence_spec g h d Hin Hedge). }
  destruct (sentence_ok_root _ Hsent) as [rest Hn].
  rewrite Hn in Hsent. pose proof (ordered_initial g rest Hsent) as Hord0.
  pose proof (collected_initial g rest Hn Hin Hroot) as Hcol0.
  destruct (canonical_path_reaches_done g Hroot Hproj (2 * length rest) _ Hord0)
    as (st & Hpath & Hdone).
  { unfold remaining. simpl. rewrite length_map. lia. }
  pose proof (canonical_path_collected g Hroot Hproj Hnonneg Hone Hbelow
                _ _ st Hord0 Hcol0 Hpath) as [Hgold Hall].
  assert (Hrel : forall h d, has_edge g h d = true -> In (h, d) (relations st)).
  { intros h d Hedge. destruct (Hall h d Hedge) as [H | (_ & _ & Hbuf)]; [exact H |].
    apply done_iff in Hdone as [Hb _]. rewrite Hb in Hbuf.
    destruct Hbuf as [[] | []]. }
  assert (Hpred : forall h d, has_edge g h d = true -> predicted_head st d = h).
  { intros h d Hedge. apply (Hone _ _ d); [| exact Hedge].
    apply Hgold. apply (find_head_In _ _ _ h). apply Hrel. exact Hedge. }
  eexists. exists (2 * length rest)%nat, st.
  split; [apply (initialize_from_graph_ok g 0 rest Hn) |].
  split; [exact Hpath |]. split; [exact Hdone |].
  split; [intros h d; split; [apply Hgold | apply Hrel] |].
  split; [exact Hpred |].
  intros d Hd Hne. destruct (single_headed_head g d Hsingle Hd Hne) as [h Hedge].
  rewrite (Hpred h d Hedge). exact Hedge.
Qed.

Lemma canonical_path_rebuilds_gold_tree_witness :
  well_formed_projective bob_saw_alice = true
  /\ rooted bob_saw_alice = true
  /\ exists st0 k st,
       initialize_from_graph bob_saw_alice = Ok st0
       /\ canonical_path bob_saw_alice k st0 = Some st
       /\ done st = true
       /\ (forall h d, In (h, d) (relations st) <-> has_edge bob_saw_alice h d = true)
       /\ (forall h d, has_edge bob_saw_alice h d = true -> predicted_head st d = h)
       /\ (forall d, In d (nodes bob_saw_alice) -> d <> 0%Z ->
             has_edge bob_saw_alice (predicted_head st d) d = true).
Proof.
  split; [vm_compute; reflexivity |]. split; [vm_compute; reflexivity |].
  apply (canonical_path_rebuilds_gold_tree bob_saw_alice); vm_compute; reflexivity.
Defined.

(** ** The head the driver reports *)

(** X2: the head reported for token [i] is that of the first recorded arc
    whose dependent is [i], and 0 when no recorded arc has dependent
    [i]. *)
Theorem predicted_head_first_arc st i :
  (predicted_head st i = 0%Z /\ forall h, ~ In (h, i) (relations st))
  \/ exists pre post,
       relations st = pre ++ (predicted_head st i, i) :: post
       /\ forall h, ~ In (h, i) pre.
Proof. unfold predicted_head. apply find_head_first. Qed.

(** ** Runs of transitions *)

Lemma do_action_remaining st a st' :
  do_action st a = Ok st' -> remaining st = S (remaining st').
Proof.
  intros Hdo. unfold remaining.
  apply do_action_ok in Hdo as [[-> H] | [[-> H] | [[-> H] | [-> H]]]].
  - apply arc_left_ok in H as (s & ss & b & bs & Hs & Hb & ->).
    simpl. rewrite Hs. simpl. lia.
  - apply arc_right_ok in H as (s & ss & b & bs & Hs & Hb & ->).
    simpl. rewrite Hb. simpl. lia.
  - apply shift_ok in H as (b & bs & Hb & ->). simpl. rewrite Hb. simpl. lia.
  - apply reduce_ok in H as (s & ss & Hs & ->). simpl. rewrite Hs. simpl. lia.
Qed.

Lemma do_actions_cons st a acts st' :
  do_actions st (a :: acts) = Ok st' ->
  exists st1, do_action st a = Ok st1 /\ do_actions st1 acts = Ok st'.
Proof.
  simpl. destruct (do_action st a) as [st1 |]; [| discriminate].
  simpl. eauto.
Qed.

Lemma do_actions_remaining acts st st' :
  do_actions st acts = Ok st' ->
  (length acts + remaining st' = remaining st)%nat.
Proof.
  revert st. induction acts as [| a acts IH]; intros st.
  - simpl. intros [= ->]. reflexivity.
  - intros (st1 & Hdo & Hrest)%do_actions_cons.
    apply do_action_remaining in Hdo. specialize (IH st1 Hrest).
    simpl length. lia.
Qed.

(** X3: every applied transition uses up one unit of
    2 |buffer| + |stack|, so a run of successfully applied actions,
    whatever they are, has at most that many steps. *)
Theorem do_actions_bounded st acts st' :
  do_actions st acts = Ok st' ->
  (length acts + (2 * length (buffer st') + length (stack st'))
   = 2 * length (buffer st) + length (stack st))%nat.
Proof. intros H. apply do_actions_remaining in H. exact H. Qed.

Lemma do_actions_bounded_witness :
  do_actions bob_saw_alice_initial [SHIFT; ARC_LEFT; ARC_RIGHT]
  = Ok (mkArcState [alice] [saw; root_node] [(2%Z, 1%Z); (0%Z, 2%Z)] false)
  /\ (length [SHIFT; ARC_LEFT; ARC_RIGHT]
      + (2 * length [alice] + length [saw; root_node])
      = 2 * length (buffer bob_saw_alice_initial)
        + length (stack bob_saw_alice_initial))%nat.
Proof.
  split; [reflexivity |].
  apply (do_actions_bounded bob_saw_alice_initial [SHIFT; ARC_LEFT; ARC_RIGHT]
           (mkArcState [alice] [saw; root_node] [(2%Z, 1%Z); (0%Z, 2%Z)] false)).
  reflexivity.
Defined.

(** X4: every complete parse of a sentence of n words, whatever actions
    lead from the initial to a terminal configuration, takes exactly 2n
    transitions. *)
Theorem complete_parse_length g st0 acts st :
  initialize_from_graph g = Ok st0 ->
  do_actions st0 acts = Ok st ->
  done st = true ->
  length acts = (2 * (length (nodes g) - 1))%nat.
Proof.
  intros Hinit Hrun Hdone.
  destruct (nodes g) as [| i rest] eqn:Hn.
  - unfold initialize_from_graph in Hinit. rewrite Hn in Hinit. discriminate.
  - rewrite (initialize_from_graph_ok g i rest Hn) in Hinit. injection Hinit as <-.
    apply do_actions_remaining in Hrun. apply done_remaining in Hdone.
    unfold remaining at 2 in Hrun. simpl in Hrun. rewrite length_map in Hrun.
    simpl. lia.
Qed.

Lemma complete_parse_length_witness :
  initialize_from_graph bob_saw_alice = Ok bob_saw_alice_initial
  /\ do_actions bob_saw_alice_initial
       [ARC_RIGHT; ARC_RIGHT; ARC_RIGHT; REDUCE; REDUCE; REDUCE]
     = Ok (mkArcState [] [root_node] [(0%Z, 1%Z); (1%Z, 2%Z); (2%Z, 3%Z)] false)
  /\ done (mkArcState [] [root_node] [(0%Z, 1%Z); (1%Z, 2%Z); (2%Z, 3%Z)] false) = true
  /\ length [ARC_RIGHT; ARC_RIGHT; ARC_RIGHT; REDUCE; REDUCE; REDUCE]
     = (2 * (length (nodes bob_saw_alice) - 1))%nat.
Proof.
  split; [reflexivity |]. split; [reflexivity |]. split; [reflexivity |].
  apply (complete_parse_length bob_saw_alice bob_saw_alice_initial
           [ARC_RIGHT; ARC_RIGHT; ARC_RIGHT; REDUCE; REDUCE; REDUCE]
           (mkArcState [] [root_node] [(0%Z, 1%Z); (1%Z, 2%Z); (2%Z, 3%Z)] false));
    reflexivity.
Defined.

(** What one transition does to the three sequences. *)
Lemma do_action_effect st a st' :
  do_action st a = Ok st' ->
  (* the stack is popped, the buffer kept *)
  ((exists s ss, stack st = s :: ss /\ stack st' = ss /\ buffer st' = buffer st)
   \/ (* the buffer head moves onto the stack *)
      (exists b bs, buffer st = b :: bs /\ buffer st' = bs
                    /\ stack st' = b :: stack st))
  /\ (relations st' = relations st
      \/ exists s b ss bs,
           stack st = s :: ss /\ buffer st = b :: bs
           /\ (relations st' = relations st ++ [(id b, id s)]
               \/ relations st' = relations st ++ [(id s, id b)])).
Proof.
  intros Hdo.
  apply do_action_ok in Hdo as [[-> H] | [[-> H] | [[-> H] | [-> H]]]].
  - apply arc_left_ok in H as (s & ss & b & bs & Hs & Hb & ->). simpl.
    split; [left; exists s, ss; auto |].
    right. exists s, b, ss, bs. auto.
  - apply arc_right_ok in H as (s & ss & b & bs & Hs & Hb & ->). simpl.
    split; [right; exists b, bs; auto |].
    right. exists s, b, ss, bs. auto.
  - apply shift_ok in H as (b & bs & Hb & ->). simpl.
    split; [right; exists b, bs; auto | left; reflexivity].
  - apply reduce_ok in H as (s & ss & Hs & ->). simpl.
    split; [left; exists s, ss; auto | left; reflexivity].
Qed.

(** X5: the recorded arcs only grow, at their end, by at most one arc per
    transition. *)
Theorem relations_append_only st acts st' :
  do_actions st acts = Ok st' ->
  exists new,
    relations st' = relations st ++ new /\ (length new <= length acts)%nat.
Proof.
  revert st. induction acts as [| a acts IH]; intros st.
  - simpl. intros [= ->]. exists []. rewrite app_nil_r. auto.
  - intros (st1 & Hdo & Hrest)%do_actions_cons.
    destruct (IH st1 Hrest) as (new & Hnew & Hlen).
    destruct (do_action_effect st a st1 Hdo) as (_ & [Hrel | Hrel]).
    + exists new. rewrite Hnew, Hrel. split; [reflexivity | simpl; lia].
    + destruct Hrel as (s & b & ss & bs & _ & _ & [Hrel | Hrel]);
        eexists (_ :: new); rewrite Hnew, Hrel, <- app_assoc;
        (split; [reflexivity | simpl; lia]).
Qed.

Lemma relations_append_only_witness :
  do_actions bob_saw_alice_initial [SHIFT; ARC_LEFT; ARC_RIGHT]
  = Ok (mkArcState [alice] [saw; root_node] [(2%Z, 1%Z); (0%Z, 2%Z)] false)
  /\ exists new,
       [(2%Z, 1%Z); (0%Z, 2%Z)] = relations bob_saw_alice_initial ++ new
       /\ (length new <= length [SHIFT; ARC_LEFT; ARC_RIGHT])%nat.
Proof.
  split; [reflexivity |].
  apply (relations_append_only bob_saw_alice_initial [SHIFT; ARC_LEFT; ARC_RIGHT]
           (mkArcState [alice] [saw; root_node] [(2%Z, 1%Z); (0%Z, 2%Z)] false)).
  reflexivity.
Defined.

(** X6: transitions never invent, duplicate or reorder tokens: the buffer
    after a run is a suffix of the buffer before, and the tokens of the
    configuration, read from the stack bottom to the buffer end, are a
    subsequence of what they were; a popped token never returns. *)
Theorem tokens_conserved st acts st' :
  do_actions st acts = Ok st' ->
  buffer st' `suffix_of` buffer st
  /\ (rev (stack st') ++ buffer st') `sublist_of` (rev (stack st) ++ buffer st).
Proof.
  revert st. induction acts as [| a acts IH]; intros st.
  - simpl. intros [= ->]. split; reflexivity.
  - intros (st1 & Hdo & Hrest)%do_actions_cons.
    destruct (IH st1 Hrest) as [Hsuf Hsub].
    destruct (do_action_effect st a st1 Hdo) as ([Hpop | Hpush] & _).
    + destruct Hpop as (s & ss & Hs & Hs1 & Hb1).
      rewrite Hs1, Hb1 in *. split; [exact Hsuf |].
      etransitivity; [exact Hsub |]. rewrite Hs. simpl. rewrite <- app_assoc.
      apply sublist_app; [reflexivity |]. simpl. apply sublist_cons. reflexivity.
    + destruct Hpush as (b & bs & Hb & Hb1 & Hs1).
      rewrite Hs1, Hb1 in *. split.
      * etransitivity; [exact Hsuf |]. rewrite Hb. apply suffix_cons_r. reflexivity.
      * etransitivity; [exact Hsub |]. rewrite Hb. simpl. rewrite <- app_assoc.
        reflexivity.
Qed.

Lemma tokens_conserved_witness :
  do_actions bob_saw_alice_initial [SHIFT; ARC_LEFT; ARC_RIGHT]
  = Ok (mkArcState [alice] [saw; root_node] [(2%Z, 1%Z); (0%Z, 2%Z)] false)
  /\ [alice] `suffix_of` buffer bob_saw_alice_initial
  /\ (rev [saw; root_node] ++ [alice])
     `sublist_of` (rev (stack bob_saw_alice_initial) ++ buffer bob_saw_alice_initial).
Proof.
  split; [reflexivity |].
  apply (tokens_conserved bob_saw_alice_initial [SHIFT; ARC_LEFT; ARC_RIGHT]
           (mkArcState [alice] [saw; root_node] [(2%Z, 1%Z); (0%Z, 2%Z)] false)).
  reflexivity.
Defined.

(** X7: every arc a run records joins the ids of two tokens that were in
    the configuration when the run began. *)
Theorem arcs_join_tokens st acts st' :
  do_actions st acts = Ok st' ->
  forall h d, In (h, d) (relations st') ->
    In (h, d) (relations st)
    \/ (has_id h (stack st ++ buffer st) /\ has_id d (stack st ++ buffer st)).
Proof.
  revert st. induction acts as [| a acts IH]; intros st.
  - simpl. intros [= ->]. auto.
  - intros (st1 & Hdo & Hrest)%do_actions_cons h d Hin.
    destruct (do_action_effect st a st1 Hdo) as (Hmove & Hrel).
    assert (Hsub : forall x, has_id x (stack st1 ++ buffer st1) ->
                     has_id x (stack st ++ buffer st)).
    { unfold has_id. intros x. rewrite !map_app, !in_app_iff.
      destruct Hmove as [(s & ss & Hs & -> & ->) | (b & bs & Hb & -> & ->)].
      - rewrite Hs. simpl. tauto.
      - rewrite Hb. simpl. tauto. }
    destruct (IH st1 Hrest h d Hin) as [Hin1 | [Hh Hd]]; [| right; auto].
    destruct Hrel as [Hrel | (s & b & ss & bs & Hs & Hb & Hrel)];
      [rewrite Hrel in Hin1; auto |].
    assert (Hends : has_id (id s) (stack st ++ buffer st)
                    /\ has_id (id b) (stack st ++ buffer st)).
    { unfold has_id. rewrite !map_app, !in_app_iff, Hs, Hb. simpl. auto. }
    destruct Hrel as [Hrel | Hrel]; rewrite Hrel in Hin1;
      apply in_app_or in Hin1 as [Hin1 | [[= <- <-] | []]]; auto; right; tauto.
Qed.

Lemma arcs_join_tokens_witness :
  do_actions bob_saw_alice_initial [SHIFT; ARC_LEFT; ARC_RIGHT]
  = Ok (mkArcState [alice] [saw; root_node] [(2%Z, 1%Z); (0%Z, 2%Z)] false)
  /\ forall h d, In (h, d) [(2%Z, 1%Z); (0%Z, 2%Z)] ->
       In (h, d) (relations bob_saw_alice_initial)
       \/ (has_id h (stack bob_saw_alice_initial ++ buffer bob_saw_alice_initial)
           /\ has_id d (stack bob_saw_alice_initial ++ buffer bob_saw_alice_initial)).
Proof.
  split; [reflexivity |].
  apply (arcs_join_tokens bob_saw_alice_initial [SHIFT; ARC_LEFT; ARC_RIGHT]
           (mkArcState [alice] [saw; root_node] [(2%Z, 1%Z); (0%Z, 2%Z)] false)).
  reflexivity.
Defined.

(** ** Error and edge behaviour *)

Lemma not_in_ACTIONS a :
  ~ In a ACTIONS ->
  (a =? ARC_LEFT)%Z = false /\ (a =? ARC_RIGHT)%Z = false
  /\ (a =? SHIFT)%Z = false /\ (a =? REDUCE)%Z = false.
Proof.
  unfold ACTIONS. simpl. intros H.
  repeat split; apply Z.eqb_neq; intros ->; apply H; auto.
Qed.

(** X8: an action code outside the four constants passes [valid_action],
    and both [do_action] and [action_cost] then raise "Invalid Action". *)
Theorem unknown_action st a g :
  ~ In a ACTIONS ->
  valid_action st a = true
  /\ do_action st a = Raise (Exception "Invalid Action")
  /\ action_cost st a g = Raise (Exception "Invalid Action").
Proof.
  intros (H1 & H2 & H3 & H4)%not_in_ACTIONS.
  assert (Hv : valid_action st a = true).
  { unfold valid_action. rewrite H1, H2, H3, H4. reflexivity. }
  split; [exact Hv |]. split.
  - unfold do_action. rewrite H1, H2, H3, H4. reflexivity.
  - unfold action_cost. rewrite Hv, H1, H2, H3, H4. reflexivity.
Qed.

Lemma unknown_action_witness :
  ~ In 0%Z ACTIONS
  /\ valid_action bob_saw_alice_initial 0 = true
  /\ do_action bob_saw_alice_initial 0 = Raise (Exception "Invalid Action")
  /\ action_cost bob_saw_alice_initial 0 bob_saw_alice
     = Raise (Exception "Invalid Action").
Proof.
  assert (H : ~ In 0%Z ACTIONS).
  { unfold ACTIONS, ARC_LEFT, ARC_RIGHT, SHIFT, REDUCE. simpl. lia. }
  split; [exact H |].
  apply (unknown_action bob_saw_alice_initial 0 bob_saw_alice H).
Defined.

(** X9: the exceptions of [do_action] are exactly the guards of the four
    transitions and the unknown-action case, each with its own message; no
    [IndexError] of a list access escapes. *)
Theorem do_action_errors st a e :
  do_action st a = Raise e <->
  (a = ARC_LEFT /\ (stack st = [] \/ buffer st = [])
   /\ e = Exception "Arc left without items")
  \/ (a = ARC_RIGHT /\ (stack st = [] \/ buffer st = [])
      /\ e = Exception "Arc right without items")
  \/ (a = SHIFT /\ buffer st = [] /\ e = Exception "Shift with empty buffer")
  \/ (a = REDUCE /\ stack st = [] /\ e = Exception "Reduce with empty stack")
  \/ (~ In a ACTIONS /\ e = Exception "Invalid Action").
Proof.
  assert (Hin : forall x, x = ARC_LEFT \/ x = ARC_RIGHT \/ x = SHIFT \/ x = REDUCE ->
                  In x ACTIONS).
  { unfold ACTIONS. simpl. intuition. }
  split.
  - unfold do_action.
    destruct (Z.eqb_spec a ARC_LEFT) as [-> | H1].
    { unfold arc_left. destruct (stack st), (buffer st); simpl; intros [= <-]; auto. }
    destruct (Z.eqb_spec a ARC_RIGHT) as [-> | H2].
    { unfold arc_right. destruct (stack st), (buffer st); simpl; intros [= <-]; auto 6. }
    destruct (Z.eqb_spec a SHIFT) as [-> | H3].
    { unfold shift. destruct (buffer st); simpl; intros [= <-]; auto 6. }
    destruct (Z.eqb_spec a REDUCE) as [-> | H4].
    { unfold reduce. destruct (stack st); simpl; intros [= <-]; auto 8. }
    intros [= <-]. do 4 right. split; [| reflexivity].
    intros Ha%in_ACTIONS. tauto.
  - intros [(-> & Hempty & ->) | [(-> & Hempty & ->) | [(-> & Hempty & ->)
            | [(-> & Hempty & ->) | (Hno & ->)]]]].
    + unfold do_action, arc_left. simpl.
      destruct Hempty as [-> | ->]; [reflexivity |]. destruct (stack st); reflexivity.
    + unfold do_action, arc_right. simpl.
      destruct Hempty as [-> | ->]; [reflexivity |]. destruct (stack st); reflexivity.
    + unfold do_action, shift. simpl. rewrite Hempty. reflexivity.
    + unfold do_action, reduce. simpl. rewrite Hempty. reflexivity.
    + apply not_in_ACTIONS in Hno as (H1 & H2 & H3 & H4).
      unfold do_action. rewrite H1, H2, H3, H4. reflexivity.
Qed.

(** X10: some action is valid exactly when the stack or the buffer still
    holds a token. *)
Theorem valid_action_exists_iff st :
  (exists a, In a ACTIONS /\ valid_action st a = true)
  <-> (stack st <> [] \/ buffer st <> []).
Proof.
  split.
  - intros (a & Ha & Hv). apply in_ACTIONS in Ha as [-> | [-> | [-> | ->]]].
    + rewrite valid_action_arc_left in Hv. destruct (stack st); [discriminate |].
      left. discriminate.
    + rewrite valid_action_arc_right in Hv. destruct (stack st); [discriminate |].
      left. discriminate.
    + rewrite valid_action_shift in Hv. destruct (buffer st); [discriminate |].
      right. discriminate.
    + rewrite valid_action_reduce in Hv. destruct (stack st); [discriminate |].
      left. discriminate.
  - intros [Hs | Hb].
    + exists REDUCE. split; [unfold ACTIONS; simpl; auto |].
      rewrite valid_action_reduce. destruct (stack st); [contradiction | reflexivity].
    + exists SHIFT. split; [unfold ACTIONS; simpl; auto |].
      rewrite valid_action_shift. destruct (buffer st); [contradiction | reflexivity].
Qed.

(** X11: a terminal configuration is not a dead end of the transition
    system: [REDUCE] is still valid there, and applying it empties the
    configuration, after which none of the four actions is valid. *)
Theorem reduce_after_done st :
  done st = true ->
  valid_action st REDUCE = true
  /\ exists st',
       do_action st REDUCE = Ok st'
       /\ stack st' = [] /\ buffer st' = []
       /\ relations st' = relations st
       /\ forall a, In a ACTIONS -> valid_action st' a = false.
Proof.
  intros (Hb & Hlen)%done_iff.
  destruct (stack st) as [| s [| s' ss]] eqn:Hs; try discriminate.
  split; [rewrite valid_action_reduce, Hs; reflexivity |].
  exists (mkArcState [] [] (relations st) (verbose st)).
  split; [unfold do_action, reduce; simpl; rewrite Hs, Hb; reflexivity |].
  repeat split.
  intros a Ha. apply in_ACTIONS in Ha as [-> | [-> | [-> | ->]]]; reflexivity.
Qed.

Lemma reduce_after_done_witness :
  done (mkArcState [] [root_node] [(0%Z, 1%Z)] false) = true
  /\ valid_action (mkArcState [] [root_node] [(0%Z, 1%Z)] false) REDUCE = true
  /\ exists st',
       do_action (mkArcState [] [root_node] [(0%Z, 1%Z)] false) REDUCE = Ok st'
       /\ stack st' = [] /\ buffer st' = []
       /\ relations st' = relations (mkArcState [] [root_node] [(0%Z, 1%Z)] false)
       /\ forall a, In a ACTIONS -> valid_action st' a = false.
Proof.
  split; [reflexivity |].
  apply (reduce_after_done (mkArcState [] [root_node] [(0%Z, 1%Z)] false)).
  reflexivity.
Defined.

(** ** The static oracle off the canonical path *)

(** X12: the action [get_next_action] proposes is rejected by
    [valid_action] in exactly two situations: the buffer is empty and the
    stack holds at most one token, or the stack top has id 0 and the gold
    graph has an edge from the buffer head to it. *)
Theorem get_next_action_invalid_iff st g :
  valid_action st (get_next_action st g) = false
  <-> (buffer st = [] /\ (length (stack st) <= 1)%nat)
      \/ exists s ss b bs,
           stack st = s :: ss /\ buffer st = b :: bs
           /\ id s = 0%Z /\ has_edge g (id b) (id s) = true.
Proof.
  unfold get_next_action.
  destruct (stack st) as [| s ss] eqn:Hs; destruct (buffer st) as [| b bs] eqn:Hb;
    simpl.
  - rewrite valid_action_shift, Hb. split; [intros _; left; split; [auto | lia] | auto].
  - rewrite valid_action_shift, Hb. split; [discriminate |].
    intros [[? _] | (? & ? & ? & ? & ? & _)]; discriminate.
  - destruct ss as [| s' ss]; simpl.
    + rewrite valid_action_shift, Hb. split; [intros _; left; split; [auto | lia] | auto].
    + rewrite valid_action_reduce, Hs. split; [discriminate |].
      intros [[_ ?] | (? & ? & ? & ? & _ & ? & _)]; [lia | discriminate].
  - destruct (has_edge g (id b) (id s)) eqn:Hbs.
    { rewrite valid_action_arc_left, Hs, Hb.
      destruct (Z.eqb_spec (id s) 0) as [H0 | H0]; simpl.
      - split; [| reflexivity]. intros _. right. exists s, ss, b, bs. auto.
      - split; [discriminate |].
        intros [[? _] | (s0 & ? & b0 & ? & [= <- _] & _ & ? & _)];
          [discriminate | contradiction]. }
    assert (Hno : ~ ((b :: bs = [] /\ (S (length ss) <= 1)%nat)
                     \/ exists s0 ss0 b0 bs0,
                          s :: ss = s0 :: ss0 /\ b :: bs = b0 :: bs0
                          /\ id s0 = 0%Z /\ has_edge g (id b0) (id s0) = true)).
    { intros [[? _] | (s0 & ? & b0 & ? & [= <- _] & [= <- _] & _ & H)];
        [discriminate | congruence]. }
    destruct (has_edge g (id s) (id b)).
    { rewrite valid_action_arc_right, Hs, Hb. split; [discriminate | tauto]. }
    destruct (existsb _ (range 0 (id s))).
    + rewrite valid_action_reduce, Hs. split; [discriminate | tauto].
    + rewrite valid_action_shift, Hb. split; [discriminate | tauto].
Qed.

Lemma get_next_action_left st g :
  get_next_action st g = ARC_LEFT ->
  exists s ss b bs,
    stack st = s :: ss /\ buffer st = b :: bs /\ has_edge g (id b) (id s) = true.
Proof.
  unfold get_next_action.
  destruct (stack st) as [| s ss]; destruct (buffer st) as [| b bs]; simpl;
    try discriminate.
  - destruct ss; discriminate.
  - destruct (has_edge g (id b) (id s)) eqn:E; [intros _; exists s, ss, b, bs; auto |].
    destruct (has_edge g (id s) (id b)); [discriminate |].
    destruct (existsb _ (range 0 (id s))); discriminate.
Qed.

Lemma get_next_action_right st g :
  get_next_action st g = ARC_RIGHT ->
  exists s ss b bs,
    stack st = s :: ss /\ buffer st = b :: bs /\ has_edge g (id s) (id b) = true.
Proof.
  unfold get_next_action.
  destruct (stack st) as [| s ss]; destruct (buffer st) as [| b bs]; simpl;
    try discriminate.
  - destruct ss; discriminate.
  - destruct (has_edge g (id b) (id s)); [discriminate |].
    destruct (has_edge g (id s) (id b)) eqn:E; [intros _; exists s, ss, b, bs; auto |].
    destruct (existsb _ (range 0 (id s))); discriminate.
Qed.

(** X13: whatever the gold graph and the starting configuration, the
    driver loop never records an arc that is not a gold edge. *)
Theorem canonical_path_records_gold_only g k st0 st :
  canonical_path g k st0 = Some st ->
  forall h d, In (h, d) (relations st) ->
    In (h, d) (relations st0) \/ has_edge g h d = true.
Proof.
  revert st0. induction k as [| k IH]; intros st0; simpl.
  - intros [= <-]. auto.
  - destruct (canonical_step g st0) as [st1 |] eqn:Hstep; [| discriminate].
    intros Hpath h d Hin. destruct (IH st1 Hpath h d Hin) as [Hin1 | Hgold]; [| auto].
    unfold canonical_step in Hstep.
    destruct (done st0); [discriminate |].
    destruct (valid_action st0 (get_next_action st0 g)); [| discriminate].
    destruct (do_action st0 (get_next_action st0 g)) as [st2 |] eqn:Hdo;
      [| discriminate].
    injection Hstep as ->.
    apply do_action_ok in Hdo as [[Ha H] | [[Ha H] | [[Ha H] | [Ha H]]]].
    + apply get_next_action_left in Ha as (s & ss & b & bs & Hs & Hb & Hedge).
      apply arc_left_ok in H as (s0 & ss0 & b0 & bs0 & Hs0 & Hb0 & ->).
      rewrite Hs in Hs0. rewrite Hb in Hb0. injection Hs0 as <- <-.
      injection Hb0 as <- <-. simpl in Hin1.
      apply in_app_or in Hin1 as [Hin1 | [[= <- <-] | []]]; auto.
    + apply get_next_action_right in Ha as (s & ss & b & bs & Hs & Hb & Hedge).
      apply arc_right_ok in H as (s0 & ss0 & b0 & bs0 & Hs0 & Hb0 & ->).
      rewrite Hs in Hs0. rewrite Hb in Hb0. injection Hs0 as <- <-.
      injection Hb0 as <- <-. simpl in Hin1.
      apply in_app_or in Hin1 as [Hin1 | [[= <- <-] | []]]; auto.
    + apply shift_ok in H as (b & bs & Hb & ->). auto.
    + apply reduce_ok in H as (s & ss & Hs & ->). auto.
Qed.

Lemma canonical_path_records_gold_only_witness :
  canonical_path bob_saw_alice 3 bob_saw_alice_initial
  = Some (mkArcState [alice] [saw; root_node] [(2%Z, 1%Z); (0%Z, 2%Z)] false)
  /\ forall h d, In (h, d) [(2%Z, 1%Z); (0%Z, 2%Z)] ->
       In (h, d) (relations bob_saw_alice_initial)
       \/ has_edge bob_saw_alice h d = true.
Proof.
  split; [reflexivity |].
  apply (canonical_path_records_gold_only bob_saw_alice 3 bob_saw_alice_initial
           (mkArcState [alice] [saw; root_node] [(2%Z, 1%Z); (0%Z, 2%Z)] false)).
  reflexivity.
Defined.

(** ** The cost of the other three actions *)

(** X14: where [ARC_LEFT] is legal, with [s] the stack top and [b] the
    buffer head, its cost is 0 on a gold edge (b, s), and 0 again when no
    buffer token is a gold head of [s]; otherwise it is the number of
    buffer tokens joined to [s] by a gold edge in either direction. *)
Theorem action_cost_arc_left_legal st g :
  valid_action st ARC_LEFT = true ->
  exists s ss b bs,
    stack st = s :: ss /\ buffer st = b :: bs
    /\ action_cost st ARC_LEFT g =
       Ok (if has_edge g (id b) (id s) then 0%Z
           else if existsb (fun k => has_edge g (id k) (id s)) (buffer st)
                then Z.of_nat (count_tokens
                                 (fun k => has_edge g (id k) (id s)
                                           || has_edge g (id s) (id k))
                                 (buffer st))
                else 0%Z).
Proof.
  intros (s & ss & b & bs & Hs & Hb & Hne)%valid_action_arc_left_iff.
  exists s, ss, b, bs. split; [exact Hs |]. split; [exact Hb |].
  apply (action_cost_arc_left st g s ss b bs Hs Hb Hne).
Qed.

Lemma action_cost_arc_left_legal_witness :
  valid_action (mkArcState [saw; alice] [bob; root_node] [] false) ARC_LEFT = true
  /\ exists s ss b bs,
       stack (mkArcState [saw; alice] [bob; root_node] [] false) = s :: ss
       /\ buffer (mkArcState [saw; alice] [bob; root_node] [] false) = b :: bs
       /\ action_cost (mkArcState [saw; alice] [bob; root_node] [] false) ARC_LEFT
            bob_saw_alice =
          Ok (if has_edge bob_saw_alice (id b) (id s) then 0%Z
              else if existsb (fun k => has_edge bob_saw_alice (id k) (id s))
                        (buffer (mkArcState [saw; alice] [bob; root_node] [] false))
                   then Z.of_nat (count_tokens
                                    (fun k => has_edge bob_saw_alice (id k) (id s)
                                              || has_edge bob_saw_alice (id s) (id k))
                                    (buffer (mkArcState [saw; alice] [bob; root_node]
                                               [] false)))
                   else 0%Z).
Proof.
  split; [reflexivity |].
  apply (action_cost_arc_left_legal
           (mkArcState [saw; alice] [bob; root_node] [] false) bob_saw_alice).
  reflexivity.
Defined.

(** X15: where [SHIFT] is legal, with [b] the buffer head, its cost is the
    number of stack tokens joined to [b] by a gold edge in either
    direction. *)
Theorem action_cost_shift_legal st g :
  valid_action st SHIFT = true ->
  exists b bs,
    buffer st = b :: bs
    /\ action_cost st SHIFT g =
       Ok (Z.of_nat (count_tokens (fun k => has_edge g (id k) (id b)
                                            || has_edge g (id b) (id k))
                                  (stack st))).
Proof.
  rewrite valid_action_shift.
  destruct (buffer st) as [| b bs] eqn:Hb; [discriminate |].
  intros _. exists b, bs. split; [reflexivity |].
  apply (action_cost_shift st g b bs Hb).
Qed.

Lemma action_cost_shift_legal_witness :
  valid_action (mkArcState [saw; alice] [bob; root_node] [] false) SHIFT = true
  /\ exists b bs,
       buffer (mkArcState [saw; alice] [bob; root_node] [] false) = b :: bs
       /\ action_cost (mkArcState [saw; alice] [bob; root_node] [] false) SHIFT
            bob_saw_alice =
          Ok (Z.of_nat (count_tokens
                          (fun k => has_edge bob_saw_alice (id k) (id b)
                                    || has_edge bob_saw_alice (id b) (id k))
                          (stack (mkArcState [saw; alice] [bob; root_node] [] false)))).
Proof.
  split; [reflexivity |].
  apply (action_cost_shift_legal
           (mkArcState [saw; alice] [bob; root_node] [] false) bob_saw_alice).
  reflexivity.
Defined.

(** X16: where [REDUCE] is legal, with [s] the stack top, its cost is the
    number of buffer tokens whose gold head is [s]. *)
Theorem action_cost_reduce_legal st g :
  valid_action st REDUCE = true ->
  exists s ss,
    stack st = s :: ss
    /\ action_cost st REDUCE g =
       Ok (Z.of_nat (count_tokens (fun k => has_edge g (id s) (id k)) (buffer st))).
Proof.
  rewrite valid_action_reduce.
  destruct (stack st) as [| s ss] eqn:Hs; [discriminate |].
  intros _. exists s, ss. split; [reflexivity |].
  apply (action_cost_reduce st g s ss Hs).
Qed.

Lemma action_cost_reduce_legal_witness :
  valid_action (mkArcState [alice] [saw; root_node] [] false) REDUCE = true
  /\ exists s ss,
       stack (mkArcState [alice] [saw; root_node] [] false) = s :: ss
       /\ action_cost (mkArcState [alice] [saw; root_node] [] false) REDUCE
            bob_saw_alice =
          Ok (Z.of_nat (count_tokens (fun k => has_edge bob_saw_alice (id s) (id k))
                          (buffer (mkArcState [alice] [saw; root_node] [] false)))).
Proof.
  split; [reflexivity |].
  apply (action_cost_reduce_legal
           (mkArcState [alice] [saw; root_node] [] false) bob_saw_alice).
  reflexivity.
Defined.

(** ** Building the initial configuration *)



(** ** Failed transitions over the store *)

(** X18: when a transition fails, the store-level [do_action] raises the
    same exception, and every list object the store held, so the whole
    configuration it was called on, is left as it was. *)
Theorem failed_transition_keeps_store σ r p a e :
  represents σ r p -> do_action p a = Raise e ->
  exists σ',
    Store.do_action r a σ = Some (Raise e, σ')
    /\ (forall l, l ∈ dom σ -> σ' !! l = σ !! l)
    /\ represents σ' r p.
Proof.
  intros Hrep Hfail.
  destruct (store_do_action σ r p a Hrep) as (σ' & Hframe & Hout).
  rewrite Hfail in Hout. exists σ'. split; [exact Hout |]. split; [exact Hframe |].
  destruct Hrep as (Hb & Hs & Hr & Hverb). unfold represents.
  rewrite !Hframe by (apply elem_of_dom; eauto). auto.
Qed.

Lemma failed_transition_keeps_store_witness :
  represents {[1%positive := []; 2%positive := map Store.PyNode [root_node];
               3%positive := []]}
             (Store.mkArcState 1 2 3 false) (mkArcState [] [root_node] [] false)
  /\ do_action (mkArcState [] [root_node] [] false) SHIFT
     = Raise (Exception "Shift with empty buffer")
  /\ exists σ',
       Store.do_action (Store.mkArcState 1 2 3 false) SHIFT
         {[1%positive := []; 2%positive := map Store.PyNode [root_node];
           3%positive := []]}
       = Some (Raise (Exception "Shift with empty buffer"), σ')
       /\ (forall l,
             l ∈ dom ({[1%positive := []; 2%positive := map Store.PyNode [root_node];
                        3%positive := []]} : gmap positive (list Store.pyval)) ->
             σ' !! l
             = ({[1%positive := []; 2%positive := map Store.PyNode [root_node];
                  3%positive := []]} : gmap positive (list Store.pyval)) !! l)
       /\ represents σ' (Store.mkArcState 1 2 3 false)
            (mkArcState [] [root_node] [] false).
Proof.
  assert (Hrep : represents
                   {[1%positive := []; 2%positive := map Store.PyNode [root_node];
                     3%positive := []]}
                   (Store.mkArcState 1 2 3 false)
                   (mkArcState [] [root_node] [] false)).
  { unfold represents. simpl. repeat split; reflexivity. }
  split; [exact Hrep |]. split; [reflexivity |].
  apply (failed_transition_keeps_store _ _ _ SHIFT _ Hrep). reflexivity.
Defined.

(** ** Sentence order along any run *)

(** X19: whatever actions are applied, the tokens keep their sentence
    order: ids decrease from the stack top down, increase along the buffer,
    and every stack id stays below every buffer id. *)
Theorem do_actions_ordered st acts st' :
  ordered st -> do_actions st acts = Ok st' -> ordered st'.
Proof.
  revert st. induction acts as [| a acts IH]; intros st Hord.
  - simpl. intros [= <-]. exact Hord.
  - intros (st1 & Hdo & Hrest)%do_actions_cons.
    apply (IH st1); [| exact Hrest].
    apply (do_action_ordered st a st1 Hord Hdo).
Qed.

Lemma do_actions_ordered_witness :
  ordered bob_saw_alice_initial
  /\ do_actions bob_saw_alice_initial [SHIFT; ARC_LEFT; ARC_RIGHT]
     = Ok (mkArcState [alice] [saw; root_node] [(2%Z, 1%Z); (0%Z, 2%Z)] false)
  /\ ordered (mkArcState [alice] [saw; root_node] [(2%Z, 1%Z); (0%Z, 2%Z)] false).
Proof.
  assert (H : ordered bob_saw_alice_initial)
    by exact (ordered_initial bob_saw_alice [1%Z; 2%Z; 3%Z] eq_refl).
  split; [exact H |]. split; [reflexivity |].
  apply (do_actions_ordered bob_saw_alice_initial [SHIFT; ARC_LEFT; ARC_RIGHT] _ H).
  reflexivity.
Defined.
